(** * InputWritr: alias resolution, dispatch and history record/replay

    A shallow embedding of [src/InputWritr/InputWritr.js].  The closure
    variables of the constructor ([triggers], [aliases], [history],
    [histories], [starting_time], [event_information], [recording]) become the
    fields of one [State] record; every method is a function on that record.

    JavaScript objects that the program shares by reference are kept in
    explicit heaps: trigger-group objects (mutated by [resetAliases], captured
    by pipes) and history objects (pushed into [histories] while still being
    written to).  The clock, the console, the timer facility and the handlers
    are external: a clock reading is an argument of the operation that takes
    it, and everything the program does to the outside world is appended to an
    effect trace.

    Conventions of the model:
    - clock readings are rationals (every finite double is one), and
      [Math.round] is exact;
    - trigger groups and [triggers] are plain objects: a read [obj[k]] that
      finds no own property finds the member of [Object.prototype] of that
      name, which the host supplies; no object has an own property
      [hasOwnProperty];
    - the subtraction in playHistory is the host's double subtraction;
    - a handler returns normally and does not call back into the instance; its
      call is one entry of the trace and its result is given by the host;
    - a name passed to saveHistory or getHistory is a number or a string; a
      string that spells an array index names that position, and [length]
      cannot be assigned a history.  What the code does with the name of
      another member that arrays inherit ([push], [__proto__], ...) is not
      modelled: the theorems about names exclude them. *)

From Stdlib Require Import QArith Qround Ascii.
From stdpp Require Import gmap strings list fin_maps pretty sorting.

Local Open Scope Z_scope.

(** ** JavaScript values *)

(** Functions and other objects are identified by reference (a number);
    primitives by their content.  Numbers that serve as codes are integers. *)
Inductive value : Type :=
| VUndef
| VNull
| VBool (b : bool)
| VNum (n : Z)
| VStr (s : string)
| VFun (f : nat)
| VObj (o : nat).

#[global] Instance value_eq_dec : EqDecision value.
Proof. solve_decision. Defined.

#[global] Instance value_inhabited : Inhabited value := populate VUndef.

(** The truth value of [v] where a condition is expected; [!v] is its
    negation. *)
Definition truthy (v : value) : bool :=
  match v with
  | VUndef | VNull => false
  | VBool b => b
  | VNum n => negb (n =? 0)
  | VStr s => negb (String.eqb s "")
  | VFun _ | VObj _ => true
  end.

(** [typeof v === "string"]. *)
Definition is_string (v : value) : bool :=
  match v with VStr _ => true | _ => false end.

(** [v instanceof Function]. *)
Definition is_function (v : value) : bool :=
  match v with VFun _ => true | _ => false end.

(** A history entry is the array [[trigger, alias]] written by a pipe. *)
Definition entry : Type := string * value.

(** What the host environment supplies: the result of calling a handler on an
    argument; the property read [v[k]] on a value that is neither [undefined]
    nor [null]; the property key that a function, an object or a number
    printed in exponent form converts to; the member of [Object.prototype]
    under a name ([undefined] when there is none); whether a name is
    that of a member arrays inherit; the difference of two
    doubles; and the order in which [for ... in] visits the keys of an
    object that are not array indices, which is the order of their
    insertion. *)
Class Host : Type := {
  handler_result : nat -> value -> value;
  host_prop : value -> string -> value;
  host_key : value -> string;
  proto_prop : string -> value;
  array_member : string -> bool;
  double_sub : Q -> Q -> Q;
  insertion_order : list (Z * entry) -> list (Z * entry);
  insertion_order_perm : forall l, insertion_order l ≡ₚ l
}.

Section Model.
Context `{!Host}.

(** Property keys are strings: [obj[v]] converts [v] first. *)
Definition key_of (v : value) : string :=
  match v with
  | VUndef => "undefined"
  | VNull => "null"
  | VBool true => "true"
  | VBool false => "false"
  | VNum n => if decide (Z.abs n < 10 ^ 21) then pretty n else host_key v
  | VStr s => s
  | VFun _ | VObj _ => host_key v
  end.

(** A plain object: [m !! k = None] when [k] is not an own property; an own
    property may hold [undefined].  The read [m[k]] finds the own property
    or else the member of [Object.prototype]. *)
Definition get (m : gmap string value) (k : string) : value :=
  default (proto_prop k) (m !! k).

Definition hasOwnProperty (m : gmap string value) (k : string) : bool :=
  bool_decide (is_Some (m !! k)).

(** [Math.round]: the nearest integer, halves towards plus infinity. *)
Definition js_round (x : Q) : Z := Qfloor (x + (1 # 2))%Q.

(** ** State *)

(** What the program does to the outside world, in the order it happens. *)
Inductive timer_arg : Type :=
| TNumber (n : Z)                  (* a number *)
| TNaN                             (* the result of arithmetic on undefined *)
| TCallback (info : entry).        (* a closure made by makeEventCall *)

Inductive effect : Type :=
| Warn (msg : string)                                  (* console.warn(msg) *)
| Invoke (f : nat) (arg : value)                       (* f(arg) *)
| PreventDefault (target : value)                      (* target.preventDefault() *)
| SetTimeout (first : timer_arg) (second : option Z).  (* setTimeout(first[, second]) *)

(** The name given to saveHistory or getHistory: an array index, or any other
    property name of the [histories] array. *)
Inductive hname : Type :=
| HIndex (i : nat)
| HName (s : string).

Record State : Type := {
  (* the heap: trigger-group objects and history objects, by reference *)
  groups : gmap nat (gmap string value);
  hist_heap : gmap nat (gmap Z entry);
  hist_next : nat;
  (* the closure variables of InputWritr *)
  triggers : list (string * nat);
  recipients : option value;
  aliases : list (string * list value);
  history : option nat;
  histories : list (option nat);
  histories_named : gmap string (option nat);
  starting_time : option Q;
  event_information : value;
  recording : value;
  (* the trace of external effects, oldest first *)
  effects : list effect
}.

Definition upd_groups (f : gmap nat (gmap string value) -> gmap nat (gmap string value))
    (st : State) : State :=
  {| groups := f (groups st); hist_heap := hist_heap st; hist_next := hist_next st;
     triggers := triggers st; recipients := recipients st; aliases := aliases st;
     history := history st; histories := histories st;
     histories_named := histories_named st; starting_time := starting_time st;
     event_information := event_information st; recording := recording st;
     effects := effects st |}.

Definition upd_hist_heap (f : gmap nat (gmap Z entry) -> gmap nat (gmap Z entry))
    (st : State) : State :=
  {| groups := groups st; hist_heap := f (hist_heap st); hist_next := hist_next st;
     triggers := triggers st; recipients := recipients st; aliases := aliases st;
     history := history st; histories := histories st;
     histories_named := histories_named st; starting_time := starting_time st;
     event_information := event_information st; recording := recording st;
     effects := effects st |}.

Definition upd_histories (f : list (option nat) -> list (option nat)) (st : State) : State :=
  {| groups := groups st; hist_heap := hist_heap st; hist_next := hist_next st;
     triggers := triggers st; recipients := recipients st; aliases := aliases st;
     history := history st; histories := f (histories st);
     histories_named := histories_named st; starting_time := starting_time st;
     event_information := event_information st; recording := recording st;
     effects := effects st |}.

Definition upd_histories_named (f : gmap string (option nat) -> gmap string (option nat))
    (st : State) : State :=
  {| groups := groups st; hist_heap := hist_heap st; hist_next := hist_next st;
     triggers := triggers st; recipients := recipients st; aliases := aliases st;
     history := history st; histories := histories st;
     histories_named := f (histories_named st); starting_time := starting_time st;
     event_information := event_information st; recording := recording st;
     effects := effects st |}.

Definition set_recording (v : value) (st : State) : State :=
  {| groups := groups st; hist_heap := hist_heap st; hist_next := hist_next st;
     triggers := triggers st; recipients := recipients st; aliases := aliases st;
     history := history st; histories := histories st;
     histories_named := histories_named st; starting_time := starting_time st;
     event_information := event_information st; recording := v;
     effects := effects st |}.

Definition set_event_information (v : value) (st : State) : State :=
  {| groups := groups st; hist_heap := hist_heap st; hist_next := hist_next st;
     triggers := triggers st; recipients := recipients st; aliases := aliases st;
     history := history st; histories := histories st;
     histories_named := histories_named st; starting_time := starting_time st;
     event_information := v; recording := recording st;
     effects := effects st |}.

Definition emit (e : effect) (st : State) : State :=
  {| groups := groups st; hist_heap := hist_heap st; hist_next := hist_next st;
     triggers := triggers st; recipients := recipients st; aliases := aliases st;
     history := history st; histories := histories st;
     histories_named := histories_named st; starting_time := starting_time st;
     event_information := event_information st; recording := recording st;
     effects := effects st ++ [e] |}.

(** A call either returns a value or raises a TypeError; both leave a state
    behind, since what was written before the fault stays written. *)
Inductive outcome : Type :=
| Returned (st : State) (result : value)
| Threw (st : State).

Definition state_of (o : outcome) : State :=
  match o with Returned st _ => st | Threw st => st end.

Definition returned (o : outcome) : bool :=
  match o with Returned _ _ => true | Threw _ => false end.

(** An object whose own properties are enumerated ([for ... in] with the
    [hasOwnProperty] filter) is a list of its own properties in enumeration
    order; a property read finds the entry under the key. *)
Fixpoint own {A : Type} (props : list (string * A)) (k : string) : option A :=
  match props with
  | [] => None
  | (k', v) :: rest => if String.eqb k' k then Some v else own rest k
  end.

(** The order of two timed entries by their keys. *)
Definition key_le (a b : Z * entry) : Prop := a.1 <= b.1.

#[global] Instance key_le_dec : RelDecision key_le.
Proof. intros a b. unfold key_le. apply _. Defined.

(** An array index: an integer key from 0 to 2^32 - 2. *)
Definition index_key (timed : Z * entry) : Prop := 0 <= timed.1 < 2 ^ 32 - 1.

#[global] Instance index_key_dec (timed : Z * entry) : Decision (index_key timed).
Proof. unfold index_key. apply _. Defined.

(** The own keys of a history object, as [for (time in events)] visits them:
    the array indices in ascending order, then the other keys in the
    order of their insertion. *)
Definition enumerate (events : gmap Z entry) : list (Z * entry) :=
  merge_sort key_le (filter index_key (map_to_list events)) ++
  insertion_order (filter (fun timed => ~ index_key timed) (map_to_list events)).

(** ** Configuration Store and Alias Resolver *)

(** The settings object; [None] is an option that is missing (or falsy, for
    the three read with [||]).  [s_recording] is [None] when the object has no
    own property "recording". *)
Record Settings : Type := {
  s_triggers : option (list (string * nat));
  s_recipients : option value;
  s_aliases : option (list (string * list value));
  s_event_information : value;
  s_recording : option value
}.

Definition no_settings : Settings :=
  {| s_triggers := None; s_recipients := None; s_aliases := None;
     s_event_information := VUndef; s_recording := None |}.

(** [trigger_group[code] = trigger_group[alias_name]] on the group at [l]. *)
Definition bind_code (alias_name : string) (l : nat)
    (G : gmap nat (gmap string value)) (code : value) : gmap nat (gmap string value) :=
  let trigger_group := G !!! l in
  <[l := <[key_of code := get trigger_group alias_name]> trigger_group]> G.

Definition resetAliases (st : State) : State :=
  upd_groups (fun G =>
    foldl (fun G alias =>
      foldl (fun G trigger =>
        foldl (bind_code alias.1 trigger.2) G alias.2)
      G (triggers st))
    G (aliases st)) st.

(** [reset] assigns [histories], [triggers], [recipients],
    [event_information], [recording] and [aliases], in that order, then runs
    resetAliases; it has no assignment to [history] or [starting_time].
    Choosing the clock accessor [get_timestamp] reads no clock.  A
    [recipients] of [None] stands for the fresh [{}]. *)
Definition reset (settings : Settings) (st : State) : State :=
  resetAliases
    {| groups := groups st; hist_heap := hist_heap st; hist_next := hist_next st;
       triggers := default [] (s_triggers settings);
       recipients := s_recipients settings;
       aliases := default [] (s_aliases settings);
       history := history st;
       histories := [];
       histories_named := ∅;
       starting_time := starting_time st;
       event_information := s_event_information settings;
       recording := default (VBool true) (s_recording settings);
       effects := effects st |}.

(** The closure variables before the constructor has assigned any of them,
    over a heap [G] of objects the caller has built. *)
Definition blank (G : gmap nat (gmap string value)) : State :=
  {| groups := G; hist_heap := ∅; hist_next := 0%nat;
     triggers := []; recipients := None; aliases := [];
     history := None; histories := []; histories_named := ∅;
     starting_time := None; event_information := VUndef; recording := VUndef;
     effects := [] |}.

(** [new InputWritr(settings)]: [self.reset(settings || {})]. *)
Definition InputWritr (settings : option Settings) (G : gmap nat (gmap string value)) : State :=
  reset (default no_settings settings) (blank G).

(** ** History Recorder *)

(** [keep_history] is [None] when restartHistory is called with no argument. *)
Definition restartHistory (keep_history : option value) (now : Q) (st : State) : State :=
  let st1 :=
    match history st, keep_history with
    | Some _, Some keep =>
        if truthy keep then upd_histories (fun hs => hs ++ [history st]) st else st
    | _, _ => st
    end in
  {| groups := groups st1; hist_heap := <[hist_next st1 := ∅]> (hist_heap st1);
     hist_next := S (hist_next st1);
     triggers := triggers st1; recipients := recipients st1; aliases := aliases st1;
     history := Some (hist_next st1);
     histories := histories st1; histories_named := histories_named st1;
     starting_time := Some now;
     event_information := event_information st1; recording := recording st1;
     effects := effects st1 |}.

(** The object a history reference points to. *)
Definition deref (st : State) (l : nat) : gmap Z entry := hist_heap st !!! l.

(** The value of a decimal digit. *)
Definition digit_of (c : Ascii.ascii) : option N :=
  let n := N_of_ascii c in
  if decide (48 <= n <= 57)%N then Some (n - 48)%N else None.

Fixpoint digits (s : string) (acc : N) : option N :=
  match s with
  | EmptyString => Some acc
  | String c rest =>
      match digit_of c with
      | Some d => digits rest (10 * acc + d)%N
      | None => None
      end
  end.

(** The array index a string spells: the canonical decimal form of a number
    from 0 to 2^32 - 2. *)
Definition index_of_string (s : string) : option nat :=
  match digits s 0 with
  | Some n =>
      if decide (pretty n = s /\ (n < 2 ^ 32 - 1)%N) then Some (N.to_nat n) else None
  | None => None
  end.

(** The property of the array [histories] that a name denotes: a position
    when the name is an array index, as a number or spelled out, and a named
    property otherwise. *)
Definition resolve_name (name : hname) : hname :=
  match name with
  | HIndex i =>
      if decide (N.of_nat i < 2 ^ 32 - 1)%N then HIndex i else HName (pretty (N.of_nat i))
  | HName s =>
      match index_of_string s with
      | Some i => HIndex i
      | None => HName s
      end
  end.

(** A name that is neither [length] nor another member arrays inherit. *)
Definition ordinary_name (name : hname) : Prop :=
  match resolve_name name with
  | HIndex _ => True
  | HName s => String.eqb s "length" = false /\ array_member s = false
  end.

(** [getHistory] returns a reference ([None] for undefined).  For an
    ordinary name the read [histories[name]] finds an own property or
    nothing. *)
Definition getHistory (name : option hname) (st : State) : option nat :=
  match resolve_name <$> name with
  | None => history st
  | Some (HIndex i) => mjoin (histories st !! i)
  | Some (HName s) => mjoin (histories_named st !! s)
  end.

Definition getHistories (st : State) : list (option nat) := histories st.


Definition setRecording (recording_new : value) (st : State) : State :=
  set_recording recording_new st.

Definition setEventInformation (event_info_new : value) (st : State) : State :=
  set_event_information event_info_new st.

(** [arr[i] = x] on an array: past the end the array grows, the gap reading
    as undefined. *)
Definition array_set (i : nat) (x : option nat) (arr : list (option nat)) : list (option nat) :=
  if decide (i < length arr)%nat then <[i := x]> arr
  else arr ++ replicate (i - length arr) None ++ [x].

(** The state saveHistory leaves.  Assigning a history to [length] raises a
    RangeError after the push. *)
Definition saveHistory (name : option hname) (st : State) : State :=
  let st1 := upd_histories (fun hs => hs ++ [history st]) st in
  match resolve_name <$> name with
  | None => st1
  | Some (HIndex i) => upd_histories (array_set i (history st)) st1
  | Some (HName s) =>
      if String.eqb s "length" then st1
      else upd_histories_named <[s := history st]> st1
  end.

(** ** Event Caller *)

Definition callEvent (event keycode : value) (st : State) : outcome :=
  if negb (truthy event) then
    Returned (emit (Warn "Blank event given, ignoring it.") st) VUndef
  else
    let resolved :=
      match event with
      | VStr label =>
          match own (triggers st) label with
          | Some l => Some (get (groups st !!! l) (key_of keycode))
          | None =>
              match proto_prop label with
              | VUndef | VNull => None
              | inherited => Some (host_prop inherited (key_of keycode))
              end
          end
      | _ => Some event
      end in
    match resolved with
    | Some (VFun f) =>
        Returned (emit (Invoke f (event_information st)) st)
                 (handler_result f (event_information st))
    | _ => Threw st
    end.

(** The closure returned by makeEventCall, named by the [info] it captured;
    [call_closure] is what running it does. *)
Definition makeEventCall (info : entry) : timer_arg := TCallback info.

Definition call_closure (info : entry) (st : State) : outcome :=
  match callEvent (VStr info.1) info.2 st with
  | Returned st' _ => Returned st' VUndef
  | Threw st' => Threw st'
  end.

(** ** History Player *)

(** [Math.round(time - starting_time)]. *)
Definition delay_of (time : Z) (start : option Q) : timer_arg :=
  match start with
  | Some s => TNumber (js_round (double_sub (inject_Z time) s))
  | None => TNaN
  end.

(** [events] is [None] when playHistory is called with no argument. *)
Definition playHistory (events : option (gmap Z entry)) (st : State) : State :=
  let events :=
    match events with
    | Some e => e
    | None => match history st with Some l => deref st l | None => ∅ end
    end in
  foldl (fun st timed =>
           let call := makeEventCall timed.2 in
           emit (SetTimeout (delay_of timed.1 (starting_time st)) None) st)
        st (enumerate events).

(** ** Pipe Factory *)

(** What the closure [pipe] captures from its makePipe call. *)
Record pipe : Type := {
  pipe_trigger : string;
  pipe_functions : nat;
  pipe_use_label : bool;
  pipe_code_label : value;
  pipe_prevent_defaults : value
}.

(** [rest] holds the arguments after [trigger], as many as were passed. *)
Definition makePipe (trigger : string) (rest : list value) (st : State) : State * option pipe :=
  match own (triggers st) trigger with
  | None =>
      (emit (Warn ("No trigger of label '" +:+ trigger +:+ "' has been defined.")) st, None)
  | Some functions =>
      (st, Some {| pipe_trigger := trigger;
                   pipe_functions := functions;
                   pipe_use_label := bool_decide (1 <= length rest)%nat;
                   pipe_code_label := nth 0 rest VUndef;
                   pipe_prevent_defaults := nth 1 rest VUndef |})
  end.

(** [history[Math.round(get_timestamp())] = [trigger, alias]]. *)
Definition record_entry (trigger : string) (alias : value) (now : Q) (st : State) : outcome :=
  match history st with
  | Some l =>
      Returned (upd_hist_heap
                  (fun H => <[l := <[js_round now := (trigger, alias)]> (H !!! l)]> H) st)
               VUndef
  | None => Threw st
  end.

(** [undefined] and [null]: a property read on them raises a TypeError. *)
Definition nullish (v : value) : bool :=
  match v with VUndef | VNull => true | _ => false end.

(** The first statement of [pipe]:
    [if (prevent_defaults && alias.preventDefault instanceof Function)
       alias.preventDefault();] *)
Definition pipe_prevent (p : pipe) (alias : value) (st : State) : outcome :=
  if truthy (pipe_prevent_defaults p) then
    if nullish alias then Threw st
    else if is_function (host_prop alias "preventDefault")
         then Returned (emit (PreventDefault alias) st) VUndef
         else Returned st VUndef
  else Returned st VUndef.

(** The second: [if (use_label) alias = alias[code_label];], [None] when the
    read raises. *)
Definition pipe_code (p : pipe) (alias : value) : option value :=
  if pipe_use_label p then
    if nullish alias then None
    else Some (host_prop alias (key_of (pipe_code_label p)))
  else Some alias.

(** The third:
    [if (functions.hasOwnProperty(alias)) {
       if (recording) history[...] = [trigger, alias];
       callEvent(functions[alias]); }]
    [now] is what the clock reads if it is asked. *)
Definition pipe_dispatch (p : pipe) (now : Q) (alias : value) (st : State) : outcome :=
  let functions := groups st !!! pipe_functions p in
  if hasOwnProperty functions (key_of alias) then
    let recorded :=
      if truthy (recording st) then record_entry (pipe_trigger p) alias now st
      else Returned st VUndef in
    match recorded with
    | Returned st _ =>
        match callEvent (get functions (key_of alias)) VUndef st with
        | Returned st _ => Returned st VUndef
        | Threw st => Threw st
        end
    | Threw st => Threw st
    end
  else Returned st VUndef.

(** One call [pipe(alias)]. *)
Definition run_pipe (p : pipe) (now : Q) (alias : value) (st : State) : outcome :=
  match pipe_prevent p alias st with
  | Returned st _ =>
      match pipe_code p alias with
      | Some alias => pipe_dispatch p now alias st
      | None => Threw st
      end
  | Threw st => Threw st
  end.

(** The occurrence [alias] gets through the first two statements of [p] and
    leaves the code [code]. *)
Definition reaches (p : pipe) (alias : value) (st : State) (code : value) : Prop :=
  returned (pipe_prevent p alias st) = true /\ pipe_code p alias = Some code.

End Model.

(** ** The alias resolver as one sequence of assignments *)

Section Resolver.
Context `{!Host}.

(** One assignment of the innermost loop: alias label, group reference, code. *)
Definition assignment : Type := string * nat * value.

Definition assign (G : gmap nat (gmap string value)) (op : assignment) :
    gmap nat (gmap string value) :=
  bind_code op.1.1 op.1.2 G op.2.

(** The assignments of resetAliases in the order the three loops make them. *)
Definition assignments (als : list (string * list value)) (trs : list (string * nat)) :
    list assignment :=
  alias ← als; trigger ← trs; code ← alias.2; [(alias.1, trigger.2, code)].

(** No code of any alias converts to the key [a]. *)
Definition label_unwritten (als : list (string * list value)) (a : string) : Prop :=
  Forall (fun alias => Forall (fun d => key_of d <> a) alias.2) als.


End Resolver.

(** ** Sequences of method calls *)

Section Calls.
Context `{!Host}.

(** A call of a method of the instance that can change something, or of a
    pipe it has handed out.  The three getters change nothing and are left
    out. *)
Inductive call : Type :=
| CallReset (settings : Settings)
| CallRestartHistory (keep_history : option value) (now : Q)
| CallSaveHistory (name : option hname)
| CallSetRecording (recording_new : value)
| CallSetEventInformation (event_info_new : value)
| CallPlayHistory (events : option (gmap Z entry))
| CallMakePipe (trigger : string) (rest : list value)
| CallPipe (p : pipe) (now : Q) (alias : value).

(** The state a call leaves behind, whether it returns or raises. *)
Definition perform (c : call) (st : State) : State :=
  match c with
  | CallReset settings => reset settings st
  | CallRestartHistory keep_history now => restartHistory keep_history now st
  | CallSaveHistory name => saveHistory name st
  | CallSetRecording v => setRecording v st
  | CallSetEventInformation v => setEventInformation v st
  | CallPlayHistory events => playHistory events st
  | CallMakePipe trigger rest => (makePipe trigger rest st).1
  | CallPipe p now alias => state_of (run_pipe p now alias st)
  end.

Definition run_calls (calls : list call) (st : State) : State :=
  foldl (fun st c => perform c st) st calls.

(** A reference is allocated when it is undefined or below the next free
    location of the history heap. *)
Definition allocated (st : State) (r : option nat) : Prop :=
  from_option (fun l => (l < hist_next st)%nat) True r.

(** Every history object lies below the next free location, and so does
    every reference the instance holds: the active one, the positions of
    [histories] and its named properties. *)
Definition refs_allocated (st : State) : Prop :=
  (forall l, is_Some (hist_heap st !! l) -> (l < hist_next st)%nat) /\
  allocated st (history st) /\
  Forall (allocated st) (histories st) /\
  map_Forall (fun _ r => allocated st r) (histories_named st).

(** Every key of the active history is at or after the rounded start time. *)
Definition keys_after_start (st : State) : Prop :=
  match history st, starting_time st with
  | Some l, Some start => map_Forall (fun t _ => js_round start <= t) (deref st l)
  | _, _ => True
  end.

(** The clock has not gone back below the start time when a pipe reads it. *)
Definition after_start (c : call) (st : State) : Prop :=
  match c with
  | CallPipe _ now _ => from_option (fun start => (start <= now)%Q) True (starting_time st)
  | _ => True
  end.

Fixpoint clock_respected (calls : list call) (st : State) : Prop :=
  match calls with
  | [] => True
  | c :: rest => after_start c st /\ clock_respected rest (perform c st)
  end.

(** A call that gives saveHistory no name of a member arrays inherit. *)
Definition plain_call (c : call) : Prop :=
  match c with
  | CallSaveHistory (Some name) => ordinary_name name
  | _ => True
  end.

(** A plain call that is neither reset nor restartHistory. *)
Definition keeps_history (c : call) : Prop :=
  match c with
  | CallReset _ | CallRestartHistory _ _ => False
  | _ => plain_call c
  end.

(** The history at [l] is the active one, a position of the archive holds
    it, and so does the property [name] of the archive, when there is one. *)
Definition archived (name : option hname) (l : nat) (st : State) : Prop :=
  history st = Some l /\
  Some l ∈ histories st /\
  match name with
  | Some n => getHistory (Some n) st = Some l
  | None => True
  end.

(** [st'] differs from [st] at most in the history heap and the trace. *)
Definition same_config (st st' : State) : Prop :=
  groups st' = groups st /\ hist_next st' = hist_next st /\
  triggers st' = triggers st /\ recipients st' = recipients st /\
  aliases st' = aliases st /\ history st' = history st /\
  histories st' = histories st /\ histories_named st' = histories_named st /\
  starting_time st' = starting_time st /\
  event_information st' = event_information st /\ recording st' = recording st.

(** [st'] differs from [st] at most in the trace. *)
Definition same_store (st st' : State) : Prop :=
  same_config st st' /\ hist_heap st' = hist_heap st.

(** The label that the last assignment to key [k] of group [l] copies from. *)
Definition last_source (ops : list assignment) (l : nat) (k : string) : option string :=
  foldl (fun acc op => if decide (op.1.2 = l /\ key_of op.2 = k) then Some op.1.1 else acc)
        None ops.

End Calls.

(** ** Sample configurations *)

(** A host whose handlers return their own number, whose object 1 is a key
    event with [keyCode] 37 and a [preventDefault] method, whose other
    property reads give undefined, and whose [Object.prototype] has the
    one member [toString]. *)
Definition demo_host : Host :=
  {| handler_result := fun f _ => VNum (Z.of_nat f);
     host_prop := fun v k =>
       match v with
       | VObj 1 =>
           if String.eqb k "keyCode" then VNum 37
           else if String.eqb k "preventDefault" then VFun 100
           else VUndef
       | _ => VUndef
       end;
     host_key := fun _ => "[object Object]";
     proto_prop := fun k => if String.eqb k "toString" then VFun 200 else VUndef;
     array_member := fun k => String.eqb k "length" || String.eqb k "push";
     double_sub := Qminus;
     insertion_order := fun l => l;
     insertion_order_perm := fun l => reflexivity l |}.

(** The scenario of the specification: one group, one alias with two codes. *)
Definition demo_heap : gmap nat (gmap string value) :=
  {[ 0%nat := {[ "move-left" := VFun 7 ]} ]}.

Definition demo_settings : Settings :=
  {| s_triggers := Some [("key-down", 0%nat)];
     s_recipients := None;
     s_aliases := Some [("move-left", [VNum 37; VNum 65])];
     s_event_information := VObj 9;
     s_recording := None |}.




(** The scenario, constructed; then with a history started while the clock
    reads 100.25; and the pipe [makePipe("key-down", "keyCode")] over it. *)
Definition demo_state : State := @InputWritr demo_host (Some demo_settings) demo_heap.

Definition demo_started : State := restartHistory None (401 # 4) demo_state.

Definition demo_pipe : pipe :=
  {| pipe_trigger := "key-down"; pipe_functions := 0%nat; pipe_use_label := true;
     pipe_code_label := VStr "keyCode"; pipe_prevent_defaults := VUndef |}.

(** The started scenario after one dispatch of the key event (object 1)
    while the clock reads 107. *)
Definition demo_recorded : State :=
  state_of (@run_pipe demo_host demo_pipe 107 (VObj 1) demo_started).

(** The history of the specification's replay example. *)
Definition demo_events : gmap Z entry :=
  <[250 := ("key-down", VNum 65)]> {[ 100 := ("key-down", VNum 37) ]}.

(** A heap with a second group object, and settings that install it under
    the same trigger name. *)
Definition two_group_heap : gmap nat (gmap string value) :=
  {[ 0%nat := {[ "move-left" := VFun 7 ]}; 1%nat := {[ "move-left" := VFun 8 ]} ]}.

Definition second_settings : Settings :=
  {| s_triggers := Some [("key-down", 1%nat)];
     s_recipients := None;
     s_aliases := Some [("move-left", [VNum 37; VNum 65])];
     s_event_information := VObj 9;
     s_recording := Some (VBool true) |}.

Definition two_group_state : State :=
  restartHistory None 0 (@InputWritr demo_host (Some demo_settings) two_group_heap).

(** The pipe [makePipe("key-down")], which takes its argument as the code. *)
Definition plain_pipe : pipe :=
  {| pipe_trigger := "key-down"; pipe_functions := 0%nat; pipe_use_label := false;
     pipe_code_label := VUndef; pipe_prevent_defaults := VUndef |}.


(** A group whose entry at 37 is the label "jump", under which [triggers]
    has nothing; recording is off. *)
Definition label_heap : gmap nat (gmap string value) :=
  {[ 0%nat := {[ "37" := VStr "jump" ]} ]}.

Definition label_settings : Settings :=
  {| s_triggers := Some [("key-down", 0%nat)];
     s_recipients := None;
     s_aliases := None;
     s_event_information := VObj 9;
     s_recording := Some (VBool false) |}.

(** Two aliases in a chain: the label "b" is also the code of "a". *)
Definition chain_heap : gmap nat (gmap string value) :=
  {[ 0%nat := {[ "a" := VFun 1; "b" := VFun 2 ]} ]}.

Definition chain_settings : Settings :=
  {| s_triggers := Some [("key-down", 0%nat)];
     s_recipients := None;
     s_aliases := Some [("b", [VStr "c"]); ("a", [VStr "b"])];
     s_event_information := VUndef;
     s_recording := None |}.

(** The cases of saveHistory: no name, a position, [length], a property. *)
Ltac saveHistory_cases name :=
  unfold saveHistory;
  let n := fresh "n" in let i := fresh "i" in let s := fresh "s" in
  destruct name as [n|]; simpl;
  [destruct (resolve_name n) as [i|s]; [|destruct (String.eqb s "length")]|].

(** ** Properties of the alias resolver *)

Section ResolverProperties.
Context `{!Host}.

Lemma foldl_bind {A B C : Type} (f : A -> C -> A) (g : B -> list C) (l : list B) (a : A) :
  foldl f a (l ≫= g) = foldl (fun a x => foldl f a (g x)) a l.
Proof.
  revert a. induction l as [|x l IH]; intros a; simpl; [done|].
  by rewrite foldl_app, IH.
Qed.

Lemma foldl_pointwise {A B : Type} (f g : A -> B -> A) (l : list B) (a : A) :
  (forall a x, f a x = g a x) -> foldl f a l = foldl g a l.
Proof.
  intros Hfg. revert a. induction l as [|x l IH]; intros a; simpl; [done|].
  by rewrite Hfg, IH.
Qed.

Lemma resetAliases_assignments (st : State) :
  groups (resetAliases st) = foldl assign (groups st) (assignments (aliases st) (triggers st)).
Proof.
  unfold resetAliases, assignments; simpl.
  rewrite foldl_bind. apply foldl_pointwise; intros G alias.
  rewrite foldl_bind. apply foldl_pointwise; intros G' trigger.
  rewrite foldl_bind. apply foldl_pointwise; intros G'' code.
  reflexivity.
Qed.

Lemma elem_of_assignments (als : list (string * list value)) (trs : list (string * nat))
    (op : assignment) :
  op ∈ assignments als trs <->
  exists alias trigger, alias ∈ als /\ trigger ∈ trs /\ op.2 ∈ alias.2 /\
                        op.1.1 = alias.1 /\ op.1.2 = trigger.2.
Proof.
  unfold assignments. rewrite list_elem_of_bind. split.
  - intros (alias & Hop & Hal). apply list_elem_of_bind in Hop as (trigger & Hop & Htr).
    apply list_elem_of_bind in Hop as (code & Hop & Hc).
    apply list_elem_of_singleton in Hop. subst op. simpl. eauto 10.
  - intros (alias & trigger & Hal & Htr & Hc & H1 & H2).
    exists alias. split; [|done]. apply list_elem_of_bind. exists trigger. split; [|done].
    apply list_elem_of_bind. exists op.2. split; [|done].
    apply list_elem_of_singleton. destruct op as [[a l] c]. simpl in *. by subst.
Qed.

(** A property of a group that no assignment targets keeps its value. *)
Lemma assign_frame (ops : list assignment) (G : gmap nat (gmap string value))
    (l : nat) (k : string) :
  Forall (fun op => op.1.2 = l -> key_of op.2 <> k) ops ->
  (foldl assign G ops !!! l) !! k = (G !!! l) !! k.
Proof.
  revert G. induction ops as [|op ops IH]; intros G Hops; simpl; [done|].
  apply Forall_cons in Hops as [Hop Hops]. rewrite IH by done.
  unfold assign, bind_code. destruct (decide (op.1.2 = l)) as [Hl|Hne].
  - rewrite Hl, lookup_total_insert_eq. rewrite lookup_insert_ne; [done|]. by apply Hop.
  - by rewrite lookup_total_insert_ne.
Qed.

(** A group that no assignment targets is left as it was. *)
Lemma assign_frame_group (ops : list assignment) (G : gmap nat (gmap string value))
    (l : nat) :
  Forall (fun op => op.1.2 <> l) ops -> foldl assign G ops !!! l = G !!! l.
Proof.
  revert G. induction ops as [|op ops IH]; intros G Hops; simpl; [done|].
  apply Forall_cons in Hops as [Hop Hops]. rewrite IH by done.
  unfold assign, bind_code. by rewrite lookup_total_insert_ne.
Qed.

Lemma reset_frame_group (settings : Settings) (st : State) (l : nat) :
  Forall (fun trigger => trigger.2 <> l) (default [] (s_triggers settings)) ->
  groups (reset settings st) !!! l = groups st !!! l.
Proof.
  intros Hnew. unfold reset. rewrite resetAliases_assignments. simpl.
  apply assign_frame_group. apply Forall_forall. intros op Hop.
  apply elem_of_assignments in Hop as (alias & trigger & _ & Htr & _ & _ & Hl).
  rewrite Hl. rewrite Forall_forall in Hnew. by apply Hnew.
Qed.


Lemma label_unwritten_assignments (als : list (string * list value))
    (trs : list (string * nat)) (a : string) (l : nat) :
  label_unwritten als a ->
  Forall (fun op : assignment => op.1.2 = l -> key_of op.2 <> a) (assignments als trs).
Proof.
  intros Hlab. apply Forall_forall. intros op Hop _.
  apply elem_of_assignments in Hop as (alias & trigger & Hal & _ & Hc & _ & _).
  unfold label_unwritten in Hlab. rewrite Forall_forall in Hlab.
  specialize (Hlab alias Hal). rewrite Forall_forall in Hlab. by apply Hlab.
Qed.




End ResolverProperties.



(** ** Properties of the history recorder and player *)

Section HistoryProperties.
Context `{!Host}.

Lemma foldl_emit_effects {A : Type} (f : State -> A -> effect) (l : list A) (st : State) :
  (forall st e x, f (emit e st) x = f st x) ->
  effects (foldl (fun st x => emit (f st x) st) st l) = effects st ++ (f st <$> l).
Proof.
  intros Hf. revert st. induction l as [|x l IH]; intros st; simpl.
  - by rewrite app_nil_r.
  - rewrite IH. simpl. rewrite <- app_assoc. simpl. do 2 f_equal.
    apply list_fmap_ext. intros _ y _. apply Hf.
Qed.

(** [C1], what the code does.  playHistory makes one [setTimeout] call per
    entry of the history it plays, and each call passes the rounded delay
    as the only argument: the closure built by makeEventCall is handed to no
    timer, and no second argument gives a delay. *)
Theorem playHistory_passes_delay_only (events : option (gmap Z entry)) (st : State) :
  let played :=
    match events with
    | Some e => e
    | None => match history st with Some l => deref st l | None => ∅ end
    end in
  effects (playHistory events st) =
  effects st ++
    ((fun timed => SetTimeout (delay_of timed.1 (starting_time st)) None) <$> enumerate played) /\
  forall time start info, delay_of time start <> TCallback info.
Proof.
  split.
  - unfold playHistory.
    apply (foldl_emit_effects
             (fun st timed => SetTimeout (delay_of timed.1 (starting_time st)) None)).
    reflexivity.
  - intros time [s|] info; discriminate.
Qed.

(** [C2], what the code does.  Called with no argument, restartHistory
    archives nothing, whatever the active history holds. *)
Theorem restartHistory_without_argument_discards (now : Q) (st : State) :
  histories (restartHistory None now st) = histories st /\
  histories_named (restartHistory None now st) = histories_named st.
Proof. unfold restartHistory. by destruct (history st). Qed.

(** restartHistory archives exactly when a history exists and an argument is
    passed and truthy; in every case the active history becomes a new empty
    object and the start time the clock reading. *)
Lemma restartHistory_spec (keep_history : option value) (now : Q) (st : State) :
  let st' := restartHistory keep_history now st in
  histories st' =
    (if bool_decide (is_Some (history st)) && from_option truthy false keep_history
     then histories st ++ [history st] else histories st) /\
  history st' = Some (hist_next st) /\
  deref st' (hist_next st) = ∅ /\
  starting_time st' = Some now.
Proof.
  unfold restartHistory, deref.
  destruct (history st) as [l|], keep_history as [keep|]; simpl;
    try destruct (truthy keep); simpl; by rewrite lookup_total_insert_eq.
Qed.

(** [C7], amended.  reset replaces the triggers, recipients, aliases, event
    information and recording flag by those of the settings (recording
    defaulting to true) and empties the archive of histories; it leaves the
    active history, the history objects and the start time as they were.
    After construction there is no active history and no start time. *)
Theorem reset_keeps_history (settings : Settings) (st : State) :
  let st' := reset settings st in
  (histories st' = [] /\ histories_named st' = ∅) /\
  (triggers st' = default [] (s_triggers settings) /\
   recipients st' = s_recipients settings /\
   aliases st' = default [] (s_aliases settings) /\
   event_information st' = s_event_information settings /\
   recording st' = default (VBool true) (s_recording settings)) /\
  (history st' = history st /\ hist_heap st' = hist_heap st /\
   starting_time st' = starting_time st) /\
  forall G, history (InputWritr (Some settings) G) = None /\
            starting_time (InputWritr (Some settings) G) = None.
Proof. by repeat split. Qed.

End HistoryProperties.

(** [C1] at the replay example of the specification, with start time 0:
    the two timers get the numbers 100 and 250 as their first argument. *)
Lemma playHistory_demo_events :
  effects (@playHistory demo_host (Some demo_events)
             (restartHistory None 0 demo_state)) =
  [SetTimeout (TNumber 100) None; SetTimeout (TNumber 250) None].
Proof. vm_compute. reflexivity. Qed.

(** [C2] at a history with one entry: after [restartHistory()] the archive
    is still empty and the entry is no longer reachable. *)
Lemma restartHistory_demo_discards :
  map_to_list (deref demo_recorded 0) = [(107, ("key-down", VNum 37))] /\
  getHistories (restartHistory None 200 demo_recorded) = [] /\
  getHistory None (restartHistory None 200 demo_recorded) = Some 1%nat /\
  map_to_list (deref (restartHistory None 200 demo_recorded) 1) = [].
Proof. vm_compute. repeat split. Qed.

(** [C7] as stated fails: a reset after one recorded dispatch leaves the
    entry in the active history and the start time at its old reading. *)
Lemma reset_history_counterexample :
  let st' := @reset demo_host demo_settings demo_recorded in
  getHistory None st' = Some 0%nat /\
  deref st' 0 !! 107 = Some ("key-down", VNum 37) /\
  deref st' 0 <> ∅ /\
  starting_time st' = Some (401 # 4).
Proof.
  vm_compute. repeat split. intros Hempty. discriminate Hempty.
Qed.

(** ** Properties of the event caller and of pipes *)

Section PipeProperties.
Context `{!Host}.

Lemma js_round_mono (x y : Q) : (x <= y)%Q -> js_round x <= js_round y.
Proof.
  intros Hxy. unfold js_round. apply Qfloor_resp_le. by apply Qplus_le_l.
Qed.

Lemma pipe_prevent_state (p : pipe) (alias : value) (st : State) :
  let st1 := state_of (pipe_prevent p alias st) in
  groups st1 = groups st /\ hist_heap st1 = hist_heap st /\ history st1 = history st /\
  histories st1 = histories st /\ histories_named st1 = histories_named st /\
  starting_time st1 = starting_time st /\ recording st1 = recording st /\
  event_information st1 = event_information st /\ triggers st1 = triggers st.
Proof.
  unfold pipe_prevent.
  destruct (truthy (pipe_prevent_defaults p)), (nullish alias),
    (is_function (host_prop alias "preventDefault")); by repeat split.
Qed.

Lemma pipe_prevent_returned (p : pipe) (alias : value) (st st' : State) :
  returned (pipe_prevent p alias st') = returned (pipe_prevent p alias st).
Proof.
  unfold pipe_prevent.
  by destruct (truthy (pipe_prevent_defaults p)), (nullish alias),
    (is_function (host_prop alias "preventDefault")).
Qed.

Lemma reaches_any_state (p : pipe) (alias code : value) (st st' : State) :
  reaches p alias st code -> reaches p alias st' code.
Proof. intros [Hret Hcode]. split; [|done]. by rewrite (pipe_prevent_returned p alias st). Qed.

Lemma run_pipe_reaches (p : pipe) (now : Q) (alias code : value) (st : State) :
  reaches p alias st code ->
  run_pipe p now alias st = pipe_dispatch p now code (state_of (pipe_prevent p alias st)).
Proof.
  intros [Hret Hcode]. unfold run_pipe. rewrite Hcode.
  by destruct (pipe_prevent p alias st).
Qed.

(** A dispatch to a key that is an own property of the group, holding [v]. *)
Lemma pipe_dispatch_own (p : pipe) (now : Q) (code v : value) (st : State) :
  (groups st !!! pipe_functions p) !! key_of code = Some v ->
  pipe_dispatch p now code st =
  match (if truthy (recording st) then record_entry (pipe_trigger p) code now st
         else Returned st VUndef) with
  | Returned st1 _ =>
      match callEvent v VUndef st1 with
      | Returned st2 _ => Returned st2 VUndef
      | Threw st2 => Threw st2
      end
  | Threw st1 => Threw st1
  end.
Proof.
  intros Hown. unfold pipe_dispatch, hasOwnProperty, get. rewrite Hown.
  rewrite bool_decide_eq_true_2 by eauto. reflexivity.
Qed.

(** A dispatch to a key that is not an own property does nothing. *)
Lemma pipe_dispatch_miss (p : pipe) (now : Q) (code : value) (st : State) :
  (groups st !!! pipe_functions p) !! key_of code = None ->
  pipe_dispatch p now code st = Returned st VUndef.
Proof.
  intros Hmiss. unfold pipe_dispatch, hasOwnProperty. rewrite Hmiss.
  rewrite bool_decide_eq_false_2; [done|]. by intros [? ?].
Qed.

(** The state a recorded dispatch to a handler [f] ends in. *)
Lemma run_pipe_recorded (p : pipe) (now : Q) (alias code : value) (st : State)
    (f l : nat) :
  reaches p alias st code ->
  (groups st !!! pipe_functions p) !! key_of code = Some (VFun f) ->
  truthy (recording st) = true ->
  history st = Some l ->
  run_pipe p now alias st =
  Returned
    (emit (Invoke f (event_information st))
       (upd_hist_heap
          (fun H => <[l := <[js_round now := (pipe_trigger p, code)]> (H !!! l)]> H)
          (state_of (pipe_prevent p alias st))))
    VUndef.
Proof.
  intros Hreach Hown Hrec Hhist.
  destruct (pipe_prevent_state p alias st) as (HG & _ & Hh & _ & _ & _ & Hr & He & _).
  rewrite (run_pipe_reaches p now alias code st Hreach).
  rewrite (pipe_dispatch_own p now code (VFun f)) by (by rewrite HG).
  unfold record_entry. rewrite Hr, Hrec, Hh, Hhist. simpl.
  unfold callEvent. simpl. by rewrite He.
Qed.

(** The state an unrecorded dispatch to a handler [f] ends in. *)
Lemma run_pipe_unrecorded (p : pipe) (now : Q) (alias code : value) (st : State) (f : nat) :
  reaches p alias st code ->
  (groups st !!! pipe_functions p) !! key_of code = Some (VFun f) ->
  truthy (recording st) = false ->
  run_pipe p now alias st =
  Returned (emit (Invoke f (event_information st)) (state_of (pipe_prevent p alias st)))
           VUndef.
Proof.
  intros Hreach Hown Hrec.
  destruct (pipe_prevent_state p alias st) as (HG & _ & _ & _ & _ & _ & Hr & He & _).
  rewrite (run_pipe_reaches p now alias code st Hreach).
  rewrite (pipe_dispatch_own p now code (VFun f)) by (by rewrite HG).
  rewrite Hr, Hrec. unfold callEvent. simpl. by rewrite He.
Qed.

(** A recorded dispatch with no history object to write to raises. *)
Lemma run_pipe_no_history (p : pipe) (now : Q) (alias code v : value) (st : State) :
  reaches p alias st code ->
  (groups st !!! pipe_functions p) !! key_of code = Some v ->
  truthy (recording st) = true ->
  history st = None ->
  run_pipe p now alias st = Threw (state_of (pipe_prevent p alias st)).
Proof.
  intros Hreach Hown Hrec Hhist.
  destruct (pipe_prevent_state p alias st) as (HG & _ & Hh & _ & _ & _ & Hr & _ & _).
  rewrite (run_pipe_reaches p now alias code st Hreach).
  rewrite (pipe_dispatch_own p now code v) by (by rewrite HG).
  unfold record_entry. by rewrite Hr, Hrec, Hh, Hhist.
Qed.



(** Every outcome of a dispatch to a key holding the handler [f]. *)
Lemma run_pipe_bound_cases (p : pipe) (now : Q) (alias code : value) (st : State) (f : nat) :
  reaches p alias st code ->
  (groups st !!! pipe_functions p) !! key_of code = Some (VFun f) ->
  let st1 := state_of (pipe_prevent p alias st) in
  let o := run_pipe p now alias st in
  if truthy (recording st) then
    match history st with
    | Some l =>
        returned o = true /\
        effects (state_of o) = effects st1 ++ [Invoke f (event_information st)] /\
        hist_heap (state_of o) =
          <[l := <[js_round now := (pipe_trigger p, code)]> (deref st l)]> (hist_heap st)
    | None => returned o = false
    end
  else
    returned o = true /\
    effects (state_of o) = effects st1 ++ [Invoke f (event_information st)] /\
    hist_heap (state_of o) = hist_heap st.
Proof.
  intros Hreach Hown.
  destruct (pipe_prevent_state p alias st) as (_ & HH & _).
  destruct (truthy (recording st)) eqn:Hrec; [destruct (history st) as [l|] eqn:Hhist|]; simpl.
  - rewrite (run_pipe_recorded p now alias code st f l) by done. simpl.
    unfold deref. by rewrite HH.
  - by rewrite (run_pipe_no_history p now alias code (VFun f) st).
  - rewrite (run_pipe_unrecorded p now alias code st f) by done. simpl. by rewrite HH.
Qed.


(** [C10].  Two recorded dispatches in a row whose clock readings round to
    the same millisecond leave one entry at that millisecond, that of the
    later dispatch: the history is the one before both with that entry put
    in, and it has as many entries as after the first dispatch. *)
Theorem same_millisecond_replaces (p1 p2 : pipe) (now1 now2 : Q)
    (alias1 alias2 code1 code2 : value) (st : State) (f1 f2 l : nat) :
  reaches p1 alias1 st code1 ->
  (groups st !!! pipe_functions p1) !! key_of code1 = Some (VFun f1) ->
  reaches p2 alias2 st code2 ->
  (groups st !!! pipe_functions p2) !! key_of code2 = Some (VFun f2) ->
  truthy (recording st) = true ->
  history st = Some l ->
  js_round now1 = js_round now2 ->
  let st1 := state_of (run_pipe p1 now1 alias1 st) in
  let st2 := state_of (run_pipe p2 now2 alias2 st1) in
  deref st1 l !! js_round now1 = Some (pipe_trigger p1, code1) /\
  deref st2 l !! js_round now2 = Some (pipe_trigger p2, code2) /\
  deref st2 l = <[js_round now2 := (pipe_trigger p2, code2)]> (deref st l) /\
  size (deref st2 l) = size (deref st1 l).
Proof.
  intros Hr1 Ho1 Hr2 Ho2 Hrec Hhist Hsame. simpl.
  destruct (pipe_prevent_state p1 alias1 st) as (HG1 & HH1 & _).
  rewrite (run_pipe_recorded p1 now1 alias1 code1 st f1 l) by done. simpl.
  set (st1 := emit _ _).
  assert (deref st1 l = <[js_round now1 := (pipe_trigger p1, code1)]> (deref st l)) as Hd1.
  { unfold deref, st1. simpl. by rewrite HH1, lookup_total_insert_eq. }
  destruct (pipe_prevent_state p1 alias1 st) as (_ & _ & Hh1 & _ & _ & _ & Hrc1 & _ & _).
  rewrite (run_pipe_recorded p2 now2 alias2 code2 st1 f2 l);
    [|by eapply reaches_any_state|by unfold st1; simpl; rewrite HG1
     |by unfold st1; simpl; rewrite Hrc1|by unfold st1; simpl; rewrite Hh1].
  destruct (pipe_prevent_state p2 alias2 st1) as (_ & HH2 & _).
  assert (deref (state_of (Returned
            (emit (Invoke f2 (event_information st1))
               (upd_hist_heap
                  (fun H => <[l := <[js_round now2 := (pipe_trigger p2, code2)]> (H !!! l)]> H)
                  (state_of (pipe_prevent p2 alias2 st1)))) VUndef)) l
          = <[js_round now2 := (pipe_trigger p2, code2)]> (deref st1 l)) as Hd2.
  { unfold deref. simpl. by rewrite HH2, lookup_total_insert_eq. }
  rewrite Hd2, Hd1, Hsame. rewrite insert_insert_eq.
  repeat split.
  - apply lookup_insert_eq.
  - apply lookup_insert_eq.
  - rewrite !map_size_insert. by destruct (deref st l !! js_round now2).
Qed.

End PipeProperties.

(** ** Archived histories, captured groups, blank handlers *)

Section SharingProperties.
Context `{!Host}.

Lemma array_set_lookup (i : nat) (x : option nat) (arr : list (option nat)) :
  array_set i x arr !! i = Some x.
Proof.
  unfold array_set. case_decide as Hi.
  - by apply list_lookup_insert_eq.
  - rewrite lookup_app_r by lia. rewrite lookup_app_r by (rewrite length_replicate; lia).
    rewrite length_replicate. by replace (i - length arr - (i - length arr))%nat with 0%nat by lia.
Qed.

Lemma array_set_lookup_ne (i j : nat) (x : option nat) (arr : list (option nat)) :
  i <> j -> (j < length arr)%nat -> array_set i x arr !! j = arr !! j.
Proof.
  intros Hne Hj. unfold array_set. case_decide.
  - by apply list_lookup_insert_ne.
  - by apply lookup_app_l.
Qed.

(** makePipe over a trigger that is an own property of [triggers] captures
    the group stored there and logs nothing; over any other name it logs one
    warning and returns no pipe.  Neither touches a group. *)
Lemma makePipe_known (trigger : string) (rest : list value) (st : State) (l : nat) :
  own (triggers st) trigger = Some l ->
  exists p, makePipe trigger rest st = (st, Some p) /\
            pipe_functions p = l /\ pipe_trigger p = trigger.
Proof. intros Hown. unfold makePipe. rewrite Hown. eauto. Qed.

Lemma makePipe_unknown (trigger : string) (rest : list value) (st : State) :
  own (triggers st) trigger = None ->
  (makePipe trigger rest st).2 = None /\
  effects (makePipe trigger rest st).1 =
    effects st ++ [Warn ("No trigger of label '" +:+ trigger +:+ "' has been defined.")] /\
  groups (makePipe trigger rest st).1 = groups st.
Proof. intros Hown. unfold makePipe. by rewrite Hown. Qed.

(** Running a closure made by makeEventCall on an entry whose trigger and
    code lead to a handler invokes that handler and writes no history. *)
Lemma call_closure_replays (info : entry) (st : State) (l f : nat) :
  info.1 <> "" ->
  own (triggers st) info.1 = Some l ->
  get (groups st !!! l) (key_of info.2) = VFun f ->
  call_closure info st = Returned (emit (Invoke f (event_information st)) st) VUndef /\
  hist_heap (state_of (call_closure info st)) = hist_heap st.
Proof.
  intros Hne Hown Hget. unfold call_closure, callEvent. simpl.
  destruct (String.eqb_spec info.1 ""); [done|]. simpl. by rewrite Hown, Hget.
Qed.

(** [C8].  A pipe made before a reset whose settings install other group
    objects keeps dispatching on the group it captured: that group is as it
    was, and a code bound to [f] there invokes [f], with the recording flag,
    the event information and the active history of the state after the
    reset. *)
Theorem pipe_keeps_captured_group (trigger : string) (rest : list value) (st st0 : State)
    (p : pipe) (settings : Settings) (now : Q) (alias code : value) (f : nat) :
  makePipe trigger rest st = (st0, Some p) ->
  Forall (fun tr => tr.2 <> pipe_functions p) (default [] (s_triggers settings)) ->
  reaches p alias st code ->
  (groups st !!! pipe_functions p) !! key_of code = Some (VFun f) ->
  let st' := reset settings st in
  let o := run_pipe p now alias st' in
  own (triggers st) trigger = Some (pipe_functions p) /\
  groups st' !!! pipe_functions p = groups st !!! pipe_functions p /\
  if truthy (recording st') then
    match history st' with
    | Some l =>
        returned o = true /\
        effects (state_of o) =
          effects (state_of (pipe_prevent p alias st')) ++ [Invoke f (event_information st')] /\
        hist_heap (state_of o) =
          <[l := <[js_round now := (trigger, code)]> (deref st' l)]> (hist_heap st')
    | None => returned o = false
    end
  else
    returned o = true /\
    effects (state_of o) =
      effects (state_of (pipe_prevent p alias st')) ++ [Invoke f (event_information st')] /\
    hist_heap (state_of o) = hist_heap st'.
Proof.
  intros Hmake Hnew Hreach Hown.
  assert (own (triggers st) trigger = Some (pipe_functions p) /\ pipe_trigger p = trigger)
    as [Hcap Htrig].
  { unfold makePipe in Hmake. destruct (own (triggers st) trigger) as [l|]; [|done].
    injection Hmake as _ <-. done. }
  pose proof (reset_frame_group settings st (pipe_functions p) Hnew) as Hframe.
  split; [done|]. split; [done|]. rewrite <- Htrig.
  apply run_pipe_bound_cases; [by eapply reaches_any_state|by rewrite Hframe].
Qed.


(** [C6], what the code does.  callEvent logs the blank-event warning and
    returns undefined, invoking nothing, when its first argument is blank.
    Given a function it invokes it on the event information and returns its
    result.  A string label is resolved as [triggers[label][keycode]] after
    the blank test and the result is not tested again: if a function is
    found it is invoked and its result returned; if the group has no
    function under the code, or [triggers] has nothing under the label, the
    call raises and logs nothing.  Any other value that is not blank raises
    too. *)
Theorem callEvent_cases (event keycode : value) (st : State) :
  (truthy event = false ->
   callEvent event keycode st =
   Returned (emit (Warn "Blank event given, ignoring it.") st) VUndef) /\
  (forall f, event = VFun f ->
   callEvent event keycode st =
   Returned (emit (Invoke f (event_information st)) st)
            (handler_result f (event_information st))) /\
  (forall label l f, event = VStr label -> label <> "" ->
   own (triggers st) label = Some l ->
   get (groups st !!! l) (key_of keycode) = VFun f ->
   callEvent event keycode st =
   Returned (emit (Invoke f (event_information st)) st)
            (handler_result f (event_information st))) /\
  (forall label l, event = VStr label -> label <> "" ->
   own (triggers st) label = Some l ->
   is_function (get (groups st !!! l) (key_of keycode)) = false ->
   callEvent event keycode st = Threw st) /\
  (forall label, event = VStr label -> label <> "" ->
   own (triggers st) label = None ->
   nullish (proto_prop label) = true ->
   callEvent event keycode st = Threw st) /\
  (truthy event = true -> is_string event = false -> is_function event = false ->
   callEvent event keycode st = Threw st).
Proof.
  assert (forall label, label <> "" -> truthy (VStr label) = true) as Hlabel.
  { intros label Hne. simpl. destruct (String.eqb_spec label ""); [done|done]. }
  unfold callEvent. repeat split.
  - by intros ->.
  - by intros f ->.
  - intros label l f -> Hne Hown Hget. rewrite (Hlabel label Hne). simpl.
    by rewrite Hown, Hget.
  - intros label l -> Hne Hown Hnone. rewrite (Hlabel label Hne). simpl. rewrite Hown.
    by destruct (get (groups st !!! l) (key_of keycode)).
  - intros label -> Hne Hown Hnull. rewrite (Hlabel label Hne). simpl. rewrite Hown.
    by destruct (proto_prop label).
  - intros Htruthy Hstr Hfun. rewrite Htruthy. simpl. by destruct event.
Qed.

End SharingProperties.

(** ** The theorems at the sample configurations *)

Section Scenarios.
#[local] Existing Instance demo_host.



(** [same_millisecond_replaces] at two dispatches that read 107.125 and
    107.375. *)
Lemma same_millisecond_replaces_demo :
  let st1 := state_of (run_pipe demo_pipe (857 # 8) (VObj 1) demo_started) in
  let st2 := state_of (run_pipe plain_pipe (859 # 8) (VNum 65) st1) in
  deref st1 0 !! js_round (857 # 8) = Some ("key-down", VNum 37) /\
  deref st2 0 !! js_round (859 # 8) = Some ("key-down", VNum 65) /\
  deref st2 0 = <[js_round (859 # 8) := ("key-down", VNum 65)]> (deref demo_started 0) /\
  size (deref st2 0) = size (deref st1 0).
Proof.
  apply (same_millisecond_replaces demo_pipe plain_pipe (857 # 8) (859 # 8)
           (VObj 1) (VNum 65) (VNum 37) (VNum 65) demo_started 7 7 0%nat).
  - split; reflexivity.
  - vm_compute. reflexivity.
  - split; reflexivity.
  - vm_compute. reflexivity.
  - reflexivity.
  - reflexivity.
  - reflexivity.
Defined.

(** [pipe_keeps_captured_group] at a pipe made over group 0 and a reset that
    installs group 1 under the same trigger name. *)
Lemma pipe_keeps_captured_group_demo :
  let st' := reset second_settings two_group_state in
  let o := run_pipe demo_pipe 5 (VObj 1) st' in
  own (triggers two_group_state) "key-down" = Some 0%nat /\
  groups st' !!! 0%nat = groups two_group_state !!! 0%nat /\
  returned o = true /\
  effects (state_of o) =
    effects (state_of (pipe_prevent demo_pipe (VObj 1) st')) ++
    [Invoke 7 (event_information st')] /\
  hist_heap (state_of o) =
    <[0%nat := <[js_round 5 := ("key-down", VNum 37)]> (deref st' 0)]> (hist_heap st').
Proof.
  apply (pipe_keeps_captured_group "key-down" [VStr "keyCode"] two_group_state
           two_group_state demo_pipe second_settings 5 (VObj 1) (VNum 37) 7).
  - vm_compute. reflexivity.
  - apply (bool_decide_unpack _). vm_compute. exact I.
  - split; reflexivity.
  - vm_compute. reflexivity.
Defined.

(** After that reset the trigger name leads to group 1, where code 37 holds
    handler 8; the pipe made before still invokes handler 7. *)
Lemma pipe_keeps_captured_group_contrast :
  let st' := reset second_settings two_group_state in
  own (triggers st') "key-down" = Some 1%nat /\
  (groups st' !!! 1%nat) !! key_of (VNum 37) = Some (VFun 8) /\
  effects (state_of (run_pipe demo_pipe 5 (VObj 1) st')) = [Invoke 7 (VObj 9)].
Proof. vm_compute. repeat split. Qed.



(** [callEvent_cases] at a label whose group has nothing under the code. *)
Lemma callEvent_cases_demo :
  callEvent (VStr "key-down") (VNum 99) demo_state = Threw demo_state.
Proof.
  apply (proj1 (proj2 (proj2 (proj2
           (callEvent_cases (VStr "key-down") (VNum 99) demo_state)))) "key-down" 0%nat).
  - reflexivity.
  - discriminate.
  - reflexivity.
  - vm_compute. reflexivity.
Defined.

(** [C6] as stated fails: the handler that the label "key-down" and the code
    99 resolve to is absent, and callEvent raises instead of logging a
    warning and returning. *)
Lemma callEvent_absent_handler_counterexample :
  let o := callEvent (VStr "key-down") (VNum 99) demo_state in
  own (triggers demo_state) "key-down" = Some 0%nat /\
  (groups demo_state !!! 0%nat) !! key_of (VNum 99) = None /\
  returned o = false /\
  effects (state_of o) = [].
Proof. vm_compute. repeat split. Qed.

End Scenarios.

(** ** More on the alias resolver *)

Section ResolverExtras.
Context `{!Host}.

Lemma assign_keeps_own (ops : list assignment) (G : gmap nat (gmap string value))
    (l : nat) (k : string) :
  is_Some ((G !!! l) !! k) -> is_Some ((foldl assign G ops !!! l) !! k).
Proof.
  revert G. induction ops as [|op ops IH]; intros G Hown; simpl; [done|].
  apply IH. unfold assign, bind_code. destruct (decide (op.1.2 = l)) as [Hl|Hl].
  - rewrite Hl, lookup_total_insert_eq. destruct (decide (key_of op.2 = k)) as [Hk|Hk].
    + rewrite Hk, lookup_insert_eq. eauto.
    + by rewrite lookup_insert_ne.
  - by rewrite lookup_total_insert_ne.
Qed.


(** reset never removes a property from a group: a key that is an own
    property of a group before reset is one after it. *)
Theorem reset_keeps_own_properties (settings : Settings) (st : State) (l : nat) (k : string) :
  is_Some ((groups st !!! l) !! k) ->
  is_Some ((groups (reset settings st) !!! l) !! k).
Proof.
  intros Hown. unfold reset. rewrite resetAliases_assignments. simpl.
  by apply assign_keeps_own.
Qed.


(** reset changes a group only at the keys of alias codes, and only the
    groups the settings name: a key that no code converts to, or any key of
    a group that is not among the settings' triggers, holds what it held. *)
Theorem reset_touches_only_codes (settings : Settings) (st : State) (l : nat) (k : string) :
  Forall (fun trigger => trigger.2 <> l) (default [] (s_triggers settings)) \/
  Forall (fun alias => Forall (fun d => key_of d <> k) alias.2)
         (default [] (s_aliases settings)) ->
  (groups (reset settings st) !!! l) !! k = (groups st !!! l) !! k.
Proof.
  intros [Hgroup|Hkey].
  - by rewrite reset_frame_group.
  - unfold reset. rewrite resetAliases_assignments. simpl.
    apply assign_frame. by apply label_unwritten_assignments.
Qed.



End ResolverExtras.

(** ** Running the alias resolver twice *)

Section ResolverIdempotence.
Context `{!Host}.

Lemma last_source_snoc (ops : list assignment) (op : assignment) (l : nat) (k : string) :
  last_source (ops ++ [op]) l k =
  if decide (op.1.2 = l /\ key_of op.2 = k) then Some op.1.1 else last_source ops l k.
Proof. unfold last_source. by rewrite foldl_app. Qed.

Lemma last_source_elem (ops : list assignment) (l : nat) (k a : string) :
  last_source ops l k = Some a -> exists op, op ∈ ops /\ op.1.1 = a.
Proof.
  induction ops as [|op ops IH] using rev_ind; [done|].
  rewrite last_source_snoc. case_decide.
  - intros [= <-]. exists op. split; [|done]. apply elem_of_app. right. by left.
  - intros Hsrc. destruct (IH Hsrc) as (op' & Hop' & Ha). exists op'.
    split; [|done]. apply elem_of_app. by left.
Qed.

(** When the labels copied from are never assigned, each key ends holding
    what the label of its last assignment held at the start. *)
Lemma assign_last (labels : list string) (ops : list assignment)
    (G : gmap nat (gmap string value)) (l : nat) (k : string) :
  Forall (fun op => op.1.1 ∈ labels) ops ->
  Forall (fun op => key_of op.2 ∉ labels) ops ->
  (foldl assign G ops !!! l) !! k =
  match last_source ops l k with
  | Some a => Some (get (G !!! l) a)
  | None => (G !!! l) !! k
  end.
Proof.
  induction ops as [|op ops IH] using rev_ind; intros Hsrc Hkeys; [done|].
  apply Forall_app in Hsrc as [Hsrc Hop]. apply Forall_app in Hkeys as [Hkeys Hopk].
  rewrite Forall_singleton in Hop. rewrite Forall_singleton in Hopk.
  rewrite last_source_snoc, foldl_app. simpl. unfold assign at 1, bind_code.
  case_decide as Htarget.
  - destruct Htarget as [Hl Hk].
    rewrite Hl, lookup_total_insert_eq, Hk, lookup_insert_eq. unfold get. do 2 f_equal.
    apply assign_frame. eapply Forall_impl; [exact Hkeys|].
    intros op' Hnot _ Heq. apply Hnot. by rewrite Heq.
  - destruct (decide (op.1.2 = l)) as [Hl|Hl].
    + rewrite Hl, lookup_total_insert_eq, lookup_insert_ne by naive_solver. by apply IH.
    + rewrite lookup_total_insert_ne by done. by apply IH.
Qed.

Lemma assign_keeps_group (ops : list assignment) (G : gmap nat (gmap string value)) (l : nat) :
  is_Some (G !! l) -> is_Some (foldl assign G ops !! l).
Proof.
  revert G. induction ops as [|op ops IH]; intros G Hsome; simpl; [done|].
  apply IH. unfold assign, bind_code. destruct (decide (op.1.2 = l)) as [Hl|Hl].
  - rewrite Hl, lookup_insert_eq. eauto.
  - by rewrite lookup_insert_ne.
Qed.

Lemma assign_makes_group (ops : list assignment) (G : gmap nat (gmap string value)) (l : nat) :
  Exists (fun op => op.1.2 = l) ops -> is_Some (foldl assign G ops !! l).
Proof.
  revert G. induction ops as [|op ops IH]; intros G Hex; simpl.
  { by apply Exists_nil in Hex. }
  apply Exists_cons in Hex as [Hl|Hex]; [|by apply IH].
  apply assign_keeps_group. unfold assign, bind_code. rewrite Hl, lookup_insert_eq. eauto.
Qed.

Lemma assign_skips_group (ops : list assignment) (G : gmap nat (gmap string value)) (l : nat) :
  Forall (fun op => op.1.2 <> l) ops -> foldl assign G ops !! l = G !! l.
Proof.
  revert G. induction ops as [|op ops IH]; intros G Hops; simpl; [done|].
  apply Forall_cons in Hops as [Hop Hops]. rewrite IH by done.
  unfold assign, bind_code. by rewrite lookup_insert_ne.
Qed.

Lemma assign_twice (labels : list string) (ops : list assignment)
    (G : gmap nat (gmap string value)) :
  Forall (fun op => op.1.1 ∈ labels) ops ->
  Forall (fun op => key_of op.2 ∉ labels) ops ->
  foldl assign (foldl assign G ops) ops = foldl assign G ops.
Proof.
  intros Hsrc Hkeys.
  assert (forall l k, (foldl assign (foldl assign G ops) ops !!! l) !! k
                      = (foldl assign G ops !!! l) !! k) as Hsame.
  { intros l k. rewrite (assign_last labels ops (foldl assign G ops)) by done.
    rewrite (assign_last labels ops G l k) by done.
    destruct (last_source ops l k) as [a|] eqn:Hlast; [|done].
    destruct (last_source_elem ops l k a Hlast) as (op & Hop & Ha).
    unfold get. do 2 f_equal. apply assign_frame.
    eapply Forall_impl; [exact Hkeys|]. intros op' Hnot _ Heq. apply Hnot.
    rewrite Heq, <- Ha. rewrite Forall_forall in Hsrc. by apply Hsrc. }
  apply map_eq. intros l.
  destruct (decide (Exists (fun op : assignment => op.1.2 = l) ops)) as [Hex|Hno].
  - rewrite (lookup_lookup_total _ l) by (by apply assign_makes_group).
    rewrite (lookup_lookup_total (foldl assign G ops) l) by (by apply assign_makes_group).
    f_equal. apply map_eq. intros k. apply Hsame.
  - apply assign_skips_group. apply Forall_forall. intros op Hop Hl.
    apply Hno. apply Exists_exists. eauto.
Qed.

Lemma reset_groups (settings : Settings) (st : State) :
  groups (reset settings st) =
  foldl assign (groups st)
        (assignments (default [] (s_aliases settings)) (default [] (s_triggers settings))).
Proof. unfold reset. by rewrite resetAliases_assignments. Qed.

(** Resetting twice with the same settings is resetting once, when no code
    of any alias converts to the label of an alias. *)
Theorem reset_idempotent (settings : Settings) (st : State) :
  Forall (fun alias => label_unwritten (default [] (s_aliases settings)) alias.1)
         (default [] (s_aliases settings)) ->
  reset settings (reset settings st) = reset settings st.
Proof.
  intros Hlabels.
  assert (groups (reset settings (reset settings st)) = groups (reset settings st)) as HG.
  { rewrite !reset_groups.
    set (als := default [] (s_aliases settings)) in *.
    apply (assign_twice (als.*1)).
    - apply Forall_forall. intros op Hop.
      apply elem_of_assignments in Hop as (alias & _ & Hal & _ & _ & Ha & _).
      rewrite Ha. by apply list_elem_of_fmap_2.
    - apply Forall_forall. intros op Hop Hin.
      apply elem_of_assignments in Hop as (alias & _ & Hal & _ & Hd & _ & _).
      apply list_elem_of_fmap in Hin as (alias' & Heq & Hal').
      rewrite Forall_forall in Hlabels. specialize (Hlabels alias' Hal').
      unfold label_unwritten in Hlabels. rewrite Forall_forall in Hlabels.
      specialize (Hlabels alias Hal). rewrite Forall_forall in Hlabels.
      by apply (Hlabels op.2 Hd). }
  change (reset settings (reset settings st)) with
    (upd_groups (fun _ => groups (reset settings (reset settings st))) (reset settings st)).
  rewrite HG. reflexivity.
Qed.

End ResolverIdempotence.

(** ** What a call leaves alone *)

Section Frames.
Context `{!Host}.

Lemma same_store_refl (st : State) : same_store st st.
Proof. by repeat split. Qed.

Lemma same_store_emit (e : effect) (st : State) : same_store st (emit e st).
Proof. by repeat split. Qed.

Lemma same_store_trans (st1 st2 st3 : State) :
  same_store st1 st2 -> same_store st2 st3 -> same_store st1 st3.
Proof. unfold same_store, same_config. intuition congruence. Qed.

Lemma pipe_prevent_same_store (p : pipe) (alias : value) (st : State) :
  same_store st (state_of (pipe_prevent p alias st)).
Proof.
  unfold pipe_prevent.
  destruct (truthy (pipe_prevent_defaults p)), (nullish alias),
    (is_function (host_prop alias "preventDefault")); by repeat split.
Qed.

Lemma callEvent_same_store (event keycode : value) (st : State) :
  same_store st (state_of (callEvent event keycode st)).
Proof. unfold callEvent. repeat case_match; by repeat split. Qed.

Lemma foldl_emit_same_store {A : Type} (f : State -> A -> effect) (l : list A) (st : State) :
  same_store st (foldl (fun st x => emit (f st x) st) st l).
Proof.
  revert st. induction l as [|x l IH]; intros st; simpl; [apply same_store_refl|].
  eapply same_store_trans; [apply (same_store_emit (f st x))|apply IH].
Qed.

Lemma playHistory_same_store (events : option (gmap Z entry)) (st : State) :
  same_store st (playHistory events st).
Proof.
  unfold playHistory.
  apply (foldl_emit_same_store
           (fun st timed => SetTimeout (delay_of timed.1 (starting_time st)) None)).
Qed.

(** What one dispatch can change: the trace, and one entry of the active
    history when the code is an own property and recording is on. *)
Lemma pipe_dispatch_frame (p : pipe) (now : Q) (code : value) (st : State) :
  let st' := state_of (pipe_dispatch p now code st) in
  same_config st st' /\
  (hist_heap st' = hist_heap st \/
   exists l, history st = Some l /\ truthy (recording st) = true /\
             hasOwnProperty (groups st !!! pipe_functions p) (key_of code) = true /\
             hist_heap st' =
               <[l := <[js_round now := (pipe_trigger p, code)]> (deref st l)]> (hist_heap st)).
Proof.
  unfold pipe_dispatch.
  destruct (hasOwnProperty (groups st !!! pipe_functions p) (key_of code)) eqn:Hown;
    [|simpl; split; [by repeat split|by left]].
  destruct (truthy (recording st)) eqn:Hrec.
  - unfold record_entry. destruct (history st) as [l|] eqn:Hhist;
      [|simpl; split; [by repeat split|by left]].
    set (st1 := upd_hist_heap _ st).
    pose proof (callEvent_same_store
                  (get (groups st !!! pipe_functions p) (key_of code)) VUndef st1) as Hcall.
    destruct (callEvent _ VUndef st1) as [st2 r|st2]; simpl in *;
      (split; [destruct Hcall as [Hcall _]; unfold same_config in *; simpl in *;
               intuition congruence|]);
      right; exists l; destruct Hcall as [_ ->]; by repeat split.
  - pose proof (callEvent_same_store
                  (get (groups st !!! pipe_functions p) (key_of code)) VUndef st) as Hcall.
    destruct (callEvent _ VUndef st) as [st2 r|st2]; simpl in *;
      destruct Hcall as [Hcall Hheap]; by split; [|left].
Qed.

Lemma run_pipe_frame (p : pipe) (now : Q) (alias : value) (st : State) :
  let st' := state_of (run_pipe p now alias st) in
  same_config st st' /\
  (hist_heap st' = hist_heap st \/
   exists l code, history st = Some l /\ truthy (recording st) = true /\
     pipe_code p alias = Some code /\
     hasOwnProperty (groups st !!! pipe_functions p) (key_of code) = true /\
     hist_heap st' =
       <[l := <[js_round now := (pipe_trigger p, code)]> (deref st l)]> (hist_heap st)).
Proof.
  unfold run_pipe.
  pose proof (pipe_prevent_same_store p alias st) as [Hcfg Hheap].
  destruct (pipe_prevent p alias st) as [st1 r|st1]; simpl in *; [|by split; [|left]].
  destruct (pipe_code p alias) as [code|] eqn:Hcode; simpl; [|by split; [|left]].
  destruct (pipe_dispatch_frame p now code st1) as [Hcfg' Hheap']. simpl in *.
  split.
  - unfold same_config in *. intuition congruence.
  - destruct Hheap' as [Hsame|(l & Hhist & Hrec & Hown & Hwrite)]; [left; congruence|].
    right. exists l, code. unfold same_config in Hcfg.
    destruct Hcfg as (HG & _ & _ & _ & _ & Hh & _ & _ & _ & _ & Hr).
    unfold deref in *. rewrite Hheap, HG, Hh, Hr in *. by repeat split.
Qed.

End Frames.

(** ** Invariants of call sequences *)

Section Invariants.
Context `{!Host}.

Lemma Forall_array_set (P : option nat -> Prop) (i : nat) (x : option nat)
    (arr : list (option nat)) :
  Forall P arr -> P None -> P x -> Forall P (array_set i x arr).
Proof.
  intros Harr Hnone Hx. unfold array_set. case_decide.
  - by apply Forall_insert.
  - apply Forall_app. split; [done|]. apply Forall_app. split.
    + by apply Forall_replicate.
    + by apply Forall_singleton.
Qed.

Lemma refs_allocated_same (st st' : State) :
  same_config st st' ->
  (forall l, is_Some (hist_heap st' !! l) -> (l < hist_next st)%nat) ->
  refs_allocated st -> refs_allocated st'.
Proof.
  intros (_ & Hn & _ & _ & _ & Hh & Hhs & Hhn & _) Hdom (_ & Hact & Harr & Hnamed).
  unfold refs_allocated, allocated in *. rewrite Hn, Hh, Hhs, Hhn. by repeat split.
Qed.

Lemma constructed_refs_allocated (settings : option Settings)
    (G : gmap nat (gmap string value)) :
  refs_allocated (InputWritr settings G).
Proof.
  repeat split; simpl.
  - intros l [h Hl]. by rewrite lookup_empty in Hl.
  - apply Forall_nil_2.
  - apply map_Forall_empty.
Qed.

Lemma restartHistory_refs_allocated (keep_history : option value) (now : Q) (st : State) :
  refs_allocated st -> refs_allocated (restartHistory keep_history now st).
Proof.
  intros (Hdom & Hact & Harr & Hnamed).
  set (st' := restartHistory keep_history now st).
  assert (hist_next st' = S (hist_next st) /\
          hist_heap st' = <[hist_next st := ∅]> (hist_heap st) /\
          history st' = Some (hist_next st) /\
          (histories st' = histories st \/ histories st' = histories st ++ [history st]) /\
          histories_named st' = histories_named st) as (Hn & Hheap & Hh & Hhs & Hhn).
  { unfold st', restartHistory.
    destruct (history st), keep_history as [keep|]; try destruct (truthy keep); simpl;
      repeat split; auto. }
  assert (forall r, allocated st r -> allocated st' r) as Hmono.
  { intros [l|]; unfold allocated; rewrite Hn; simpl; [lia|done]. }
  repeat split.
  - intros l Hl. rewrite Hheap in Hl. rewrite Hn.
    apply lookup_insert_is_Some in Hl as [<-|[_ Hl]]; [lia|]. apply Hdom in Hl. lia.
  - rewrite Hh. unfold allocated. rewrite Hn. simpl. lia.
  - assert (Forall (allocated st) (histories st')) as Hall.
    { destruct Hhs as [->| ->]; [done|]. apply Forall_app. split; [done|].
      by apply Forall_singleton. }
    eapply Forall_impl; [exact Hall|exact Hmono].
  - rewrite Hhn. eapply map_Forall_impl; [exact Hnamed|]. intros k r. apply Hmono.
Qed.

Lemma saveHistory_refs_allocated (name : option hname) (st : State) :
  refs_allocated st -> refs_allocated (saveHistory name st).
Proof.
  intros (Hdom & Hact & Harr & Hnamed).
  assert (Forall (allocated st) (histories st ++ [history st])) as Hpush.
  { apply Forall_app. split; [done|]. by apply Forall_singleton. }
  saveHistory_cases name; repeat split; try done; simpl.
  - by apply (Forall_array_set (allocated st)).
  - by apply (map_Forall_insert_2 (fun _ r => allocated st r)).
Qed.

Lemma perform_refs_allocated (c : call) (st : State) :
  refs_allocated st -> refs_allocated (perform c st).
Proof.
  intros Hwf. destruct c as [settings|keep now|name|v|v|events|trigger rest|p now alias]; simpl.
  - destruct Hwf as (Hdom & Hact & _ & _). by repeat split.
  - by apply restartHistory_refs_allocated.
  - by apply saveHistory_refs_allocated.
  - exact Hwf.
  - exact Hwf.
  - destruct (playHistory_same_store events st) as [Hcfg Hheap].
    apply (refs_allocated_same st); [done| |done].
    rewrite Hheap. by destruct Hwf as [Hdom _].
  - unfold makePipe. by destruct (own (triggers st) trigger).
  - destruct (run_pipe_frame p now alias st) as [Hcfg Hheap]. simpl in *.
    apply (refs_allocated_same st); [done| |done].
    destruct Hwf as (Hdom & Hact & _).
    destruct Hheap as [Hsame|(l & code & Hh & _ & _ & _ & Hwrite)].
    { by rewrite Hsame. }
    rewrite Hwrite.
    intros l' Hl'. apply lookup_insert_is_Some in Hl' as [<-|[_ Hl']]; [|by apply Hdom].
    unfold allocated in Hact. by rewrite Hh in Hact.
Qed.

Lemma run_calls_refs_allocated (calls : list call) (st : State) :
  refs_allocated st -> refs_allocated (run_calls calls st).
Proof.
  revert st. induction calls as [|c calls IH]; intros st Hwf; simpl; [done|].
  apply IH. by apply perform_refs_allocated.
Qed.

Lemma unallocated_is_empty (st : State) (l : nat) :
  refs_allocated st -> (hist_next st <= l)%nat -> deref st l = ∅.
Proof.
  intros (Hdom & _) Hl. unfold deref. rewrite lookup_total_alt.
  destruct (hist_heap st !! l) as [h|] eqn:Hlook; [|done].
  assert (l < hist_next st)%nat by (apply Hdom; eauto). lia.
Qed.

Lemma perform_keeps_entries (c : call) (st : State) (l : nat) (t : Z) :
  refs_allocated st ->
  is_Some (deref st l !! t) -> is_Some (deref (perform c st) l !! t).
Proof.
  intros Hwf Hentry.
  destruct c as [settings|keep now|name|v|v|events|trigger rest|p now alias]; simpl.
  - exact Hentry.
  - destruct (decide (l = hist_next st)) as [->|Hne].
    + rewrite (unallocated_is_empty st (hist_next st)) in Hentry by (done || lia).
      rewrite lookup_empty in Hentry. by destruct Hentry.
    + unfold restartHistory, deref in *.
      destruct (history st), keep as [keep|]; try destruct (truthy keep); simpl;
        by rewrite lookup_total_insert_ne.
  - by saveHistory_cases name.
  - exact Hentry.
  - exact Hentry.
  - destruct (playHistory_same_store events st) as [_ Hheap].
    unfold deref in *. by rewrite Hheap.
  - unfold makePipe. by destruct (own (triggers st) trigger).
  - destruct (run_pipe_frame p now alias st) as [_ Hheap]. simpl in *.
    unfold deref in *.
    destruct Hheap as [Hsame|(l0 & code & _ & _ & _ & _ & Hwrite)].
    { by rewrite Hsame. }
    rewrite Hwrite.
    destruct (decide (l0 = l)) as [->|Hne].
    + rewrite lookup_total_insert_eq. apply lookup_insert_is_Some'. by right.
    + by rewrite lookup_total_insert_ne.
Qed.

Lemma run_calls_keeps_entries (calls : list call) (st : State) (l : nat) (t : Z) :
  refs_allocated st ->
  is_Some (deref st l !! t) -> is_Some (deref (run_calls calls st) l !! t).
Proof.
  revert st. induction calls as [|c calls IH]; intros st Hwf Hentry; simpl; [done|].
  apply IH; [by apply perform_refs_allocated|by apply perform_keeps_entries].
Qed.

(** No method call removes an entry from a history object: a key recorded
    in a history of an instance is still a key of that history after any
    further calls of reset, restartHistory, saveHistory, the setters,
    playHistory, makePipe and pipes (a later dispatch at the same
    millisecond may replace the value under it). *)
Theorem history_entries_persist (settings : option Settings)
    (G : gmap nat (gmap string value)) (before later : list call) (l : nat) (t : Z) :
  is_Some (deref (run_calls before (InputWritr settings G)) l !! t) ->
  is_Some (deref (run_calls later (run_calls before (InputWritr settings G))) l !! t).
Proof.
  apply run_calls_keeps_entries, run_calls_refs_allocated, constructed_refs_allocated.
Qed.

Lemma perform_keys_after_start (c : call) (st : State) :
  keys_after_start st -> after_start c st -> keys_after_start (perform c st).
Proof.
  intros Hkeys Hclock.
  destruct c as [settings|keep now|name|v|v|events|trigger rest|p now alias]; simpl.
  - exact Hkeys.
  - unfold keys_after_start, restartHistory, deref.
    destruct (history st), keep as [keep|]; try destruct (truthy keep); simpl;
      rewrite lookup_total_insert_eq; apply map_Forall_empty.
  - by saveHistory_cases name.
  - exact Hkeys.
  - exact Hkeys.
  - destruct (playHistory_same_store events st)
      as [(_ & _ & _ & _ & _ & Hh & _ & _ & Hs & _) Hheap].
    unfold keys_after_start, deref in *. by rewrite Hh, Hs, Hheap.
  - unfold makePipe. by destruct (own (triggers st) trigger).
  - destruct (run_pipe_frame p now alias st)
      as [(_ & _ & _ & _ & _ & Hh & _ & _ & Hs & _) Hheap]. simpl in *.
    unfold keys_after_start, deref in *. rewrite Hh, Hs.
    destruct (history st) as [l|] eqn:Hhist; [|done].
    destruct (starting_time st) as [start|] eqn:Hstart; [|done].
    destruct Hheap as [Hsame|(l0 & code & [= <-] & _ & _ & _ & Hwrite)].
    { by rewrite Hsame. }
    rewrite Hwrite.
    rewrite lookup_total_insert_eq. apply map_Forall_insert_2; [|done].
    by apply js_round_mono.
Qed.

(** Every key of the active history is at or after the rounded start time,
    after any sequence of calls on a new instance in which no pipe reads the
    clock below the start time of its session. *)
Theorem history_keys_after_start (settings : option Settings)
    (G : gmap nat (gmap string value)) (calls : list call) :
  clock_respected calls (InputWritr settings G) ->
  keys_after_start (run_calls calls (InputWritr settings G)).
Proof.
  assert (keys_after_start (InputWritr settings G)) as Hinit by done.
  revert Hinit. generalize (InputWritr settings G).
  induction calls as [|c calls IH]; intros st Hkeys Hclock; simpl; [done|].
  destruct Hclock as [Hc Hrest]. apply IH; [|done]. by apply perform_keys_after_start.
Qed.

(** restartHistory with a truthy argument archives the outgoing history as
    it is and starts a different object: the archive gains the old
    reference at its end, the old object keeps its entries, and no later
    dispatch writes to it.  The calls before have given saveHistory no name
    of a member arrays inherit: after [saveHistory("push")] the push of
    restartHistory raises, which the model does not cover. *)
Theorem restartHistory_snapshot_stable (settings : option Settings)
    (G : gmap nat (gmap string value)) (calls : list call)
    (keep : value) (now : Q) (l : nat) (p : pipe) (now' : Q) (alias : value) :
  Forall plain_call calls ->
  history (run_calls calls (InputWritr settings G)) = Some l ->
  truthy keep = true ->
  let st := run_calls calls (InputWritr settings G) in
  let st1 := restartHistory (Some keep) now st in
  getHistories st1 = getHistories st ++ [Some l] /\
  getHistory None st1 <> Some l /\
  deref st1 l = deref st l /\
  deref (state_of (run_pipe p now' alias st1)) l = deref st l.
Proof.
  intros _ Hh Hkeep. cbv zeta.
  pose proof (run_calls_refs_allocated calls (InputWritr settings G)
                (constructed_refs_allocated settings G)) as (_ & Hact & _).
  set (st := run_calls calls (InputWritr settings G)) in *.
  unfold allocated in Hact. rewrite Hh in Hact. simpl in Hact.
  assert (hist_heap (restartHistory (Some keep) now st) = <[hist_next st := ∅]> (hist_heap st)
          /\ history (restartHistory (Some keep) now st) = Some (hist_next st)
          /\ histories (restartHistory (Some keep) now st) = histories st ++ [Some l])
    as (Hheap & Hnew & Harch).
  { unfold restartHistory. rewrite Hh, Hkeep. simpl. by rewrite ?Hh. }
  assert (deref (restartHistory (Some keep) now st) l = deref st l) as Hold.
  { unfold deref. rewrite Hheap. apply lookup_total_insert_ne. lia. }
  unfold getHistories, getHistory. rewrite Harch, Hnew. repeat split; try done.
  - intros [= Heq]. lia.
  - destruct (run_pipe_frame p now' alias (restartHistory (Some keep) now st))
      as [_ Hwrite]. rewrite <- Hold. unfold deref at 1 2.
    destruct Hwrite as [Hsame|(l0 & code & Hl0 & _ & _ & _ & Hwrite)].
    { by rewrite Hsame. }
    rewrite Hwrite.
    rewrite Hnew in Hl0. injection Hl0 as <-. apply lookup_total_insert_ne. lia.
Qed.

End Invariants.

(** ** Edge behaviour of pipes and of the history methods *)

Section PipeExtras.
Context `{!Host}.


(** A pipe made with a code label or with prevent_defaults raises on an
    occurrence that is undefined or null, and has then changed nothing. *)
Theorem pipe_nullish_occurrence_raises (p : pipe) (now : Q) (alias : value) (st : State) :
  nullish alias = true ->
  pipe_use_label p = true \/ truthy (pipe_prevent_defaults p) = true ->
  run_pipe p now alias st = Threw st.
Proof.
  intros Hnull Hmade. unfold run_pipe, pipe_prevent, pipe_code. rewrite Hnull.
  destruct (truthy (pipe_prevent_defaults p)); [done|].
  destruct Hmade as [->|?]; done.
Qed.

(** A pipe call changes no group, no setting, not the archive and not the
    start time, and it writes to no history object but the active one. *)
Theorem pipe_writes_only_active_history (p : pipe) (now : Q) (alias : value) (st : State)
    (l : nat) :
  history st <> Some l ->
  same_config st (state_of (run_pipe p now alias st)) /\
  deref (state_of (run_pipe p now alias st)) l = deref st l.
Proof.
  intros Hother. destruct (run_pipe_frame p now alias st) as [Hcfg Hheap].
  split; [done|]. unfold deref.
  destruct Hheap as [Hsame|(l0 & code & Hl0 & _ & _ & _ & Hwrite)].
  - by rewrite Hsame.
  - rewrite Hwrite. apply lookup_total_insert_ne. congruence.
Qed.

(** saveHistory and getHistory round trip, for names that are neither
    [length] nor another member arrays inherit: after [saveHistory(name)],
    [getHistory(name)] is the active history, and so is the position at the
    old end of [getHistories()] after [saveHistory()]; any other property, and
    any other position below the old end, reads as before.  A string that
    spells an array index is the same name as that index. *)
Theorem saveHistory_getHistory_round_trip (name : option hname) (other : hname) (st : State) :
  from_option ordinary_name True name ->
  ordinary_name other ->
  resolve_name <$> name <> Some (resolve_name other) ->
  match resolve_name other with
  | HIndex j => (j < length (histories st))%nat
  | HName _ => True
  end ->
  match name with
  | Some n => getHistory (Some n) (saveHistory name st) = getHistory None st
  | None => mjoin (getHistories (saveHistory name st) !! length (getHistories st))
            = getHistory None st
  end /\
  getHistory (Some other) (saveHistory name st) = getHistory (Some other) st /\
  getHistory None (saveHistory name st) = getHistory None st.
Proof.
  intros Hname Hother Hne Hbound.
  unfold getHistory, getHistories, saveHistory, ordinary_name in *.
  destruct name as [n|]; simpl in *.
  - destruct (resolve_name n) as [i|s] eqn:Hn; simpl.
    + split; [by rewrite array_set_lookup|]. split; [|done].
      destruct (resolve_name other) as [j|s']; simpl; [|done].
      rewrite array_set_lookup_ne; [|congruence|rewrite length_app; simpl; lia].
      by rewrite lookup_app_l.
    + destruct Hname as [-> _]. simpl.
      split; [by rewrite lookup_insert_eq|]. split; [|done].
      destruct (resolve_name other) as [j|s']; simpl.
      * by rewrite lookup_app_l.
      * rewrite lookup_insert_ne; [done|congruence].
  - split; [|split; [|done]].
    + rewrite lookup_app_r by lia. by rewrite Nat.sub_diag.
    + destruct (resolve_name other) as [j|s']; simpl; [|done]. by rewrite lookup_app_l.
Qed.

(** Whether a pipe extracts a code is decided by how many arguments
    makePipe got, not by what the label is: with one argument the occurrence
    is the code, even undefined or null; with more, the occurrence is
    replaced by its property under the label converted to a key, so a label
    passed as [null] reads the property "null". *)
Theorem makePipe_label_by_argument_count (trigger : string) (rest : list value)
    (st : State) (p : pipe) (alias : value) :
  (makePipe trigger rest st).2 = Some p ->
  match rest with
  | [] => pipe_code p alias = Some alias
  | label :: _ =>
      pipe_code p alias =
      if nullish alias then None else Some (host_prop alias (key_of label))
  end.
Proof.
  unfold makePipe. destruct (own (triggers st) trigger) as [l|]; [|done].
  simpl. intros [= <-]. unfold pipe_code. by destruct rest.
Qed.

(** playHistory changes nothing of the instance: no entry is written, no
    group, setting or archive changes; it makes one setTimeout call per
    entry of the history it plays, and none when it is called with no
    argument before any history was started. *)
Theorem playHistory_changes_only_trace (events : option (gmap Z entry)) (st : State) :
  same_store st (playHistory events st) /\
  length (effects (playHistory events st)) =
    (length (effects st) +
     size (match events with
           | Some e => e
           | None => match history st with Some l => deref st l | None => ∅ end
           end))%nat.
Proof.
  split; [apply playHistory_same_store|].
  unfold playHistory.
  rewrite (foldl_emit_effects
             (fun st timed => SetTimeout (delay_of timed.1 (starting_time st)) None))
    by done.
  rewrite length_app, length_fmap. f_equal. unfold enumerate.
  rewrite merge_sort_Permutation, insertion_order_perm, filter_app_complement.
  apply length_map_to_list.
Qed.







End PipeExtras.

(** ** Archived references *)

Section Archive.
Context `{!Host}.

Lemma saveHistory_archived (name : option hname) (l : nat) (st : State) :
  history st = Some l ->
  from_option ordinary_name True name ->
  archived name l (saveHistory name st).
Proof.
  intros Hh Hname. unfold archived, getHistory, saveHistory, ordinary_name in *.
  destruct name as [n|]; simpl in *.
  - destruct (resolve_name n) as [i|s]; simpl.
    + rewrite array_set_lookup, Hh. repeat split; try done.
      apply list_elem_of_lookup. exists i. apply array_set_lookup.
    + destruct Hname as [-> _]. simpl. rewrite lookup_insert_eq, Hh.
      repeat split; try done. set_solver.
  - rewrite Hh. repeat split; try done. set_solver.
Qed.

Lemma same_config_archived (name : option hname) (l : nat) (st st' : State) :
  same_config st st' -> archived name l st -> archived name l st'.
Proof.
  intros (_ & _ & _ & _ & _ & Hh & Hhs & Hhn & _). unfold archived, getHistory.
  by rewrite Hh, Hhs, Hhn.
Qed.

Lemma perform_archived (name : option hname) (l : nat) (c : call) (st : State) :
  keeps_history c -> archived name l st -> archived name l (perform c st).
Proof.
  intros Hquiet Harch.
  destruct c as [settings|keep now|saved|v|v|events|trigger rest|p now alias]; simpl;
    try done.
  - destruct Harch as (Hh & Hpos & Hname).
    unfold archived, getHistory, saveHistory, ordinary_name in *. simpl in Hquiet.
    assert (Some l ∈ histories st ++ [history st]) as Hpush.
    { apply elem_of_app. by left. }
    assert (forall i : nat, mjoin (histories st !! i) = Some l ->
              forall j x, x = Some l ->
              mjoin (array_set j x (histories st ++ [history st]) !! i) = Some l) as Hpositions.
    { intros i Hi j x ->. destruct (decide (j = i)) as [->|Hji].
      - by rewrite array_set_lookup.
      - destruct (histories st !! i) as [r|] eqn:Hlook; [|done].
        rewrite array_set_lookup_ne;
          [|done|rewrite length_app; apply lookup_lt_Some in Hlook; lia].
        by rewrite (lookup_app_l_Some _ _ _ _ Hlook). }
    destruct saved as [m|]; simpl in *.
    + unfold ordinary_name in Hquiet. destruct (resolve_name m) as [j|s]; simpl.
      * repeat split; [done| |].
        { rewrite Hh. apply list_elem_of_lookup. exists j. apply array_set_lookup. }
        destruct name as [n|]; simpl in *; [|done].
        destruct (resolve_name n) as [i|s']; simpl in *; [|done].
        by apply Hpositions.
      * destruct Hquiet as [-> _]. simpl. repeat split; [done|done|].
        destruct name as [n|]; simpl in *; [|done].
        destruct (resolve_name n) as [i|s']; simpl in *.
        { destruct (histories st !! i) as [r|] eqn:Hlook; [|done].
          by rewrite (lookup_app_l_Some _ _ _ _ Hlook). }
        destruct (decide (s = s')) as [->|Hss].
        { by rewrite lookup_insert_eq, Hh. }
        by rewrite lookup_insert_ne.
    + repeat split; [done|done|].
      destruct name as [n|]; simpl in *; [|done].
      destruct (resolve_name n) as [i|s']; simpl in *; [|done].
      destruct (histories st !! i) as [r|] eqn:Hlook; [|done].
      by rewrite (lookup_app_l_Some _ _ _ _ Hlook).
  - destruct (playHistory_same_store events st) as [Hcfg _].
    by apply (same_config_archived name l st).
  - unfold makePipe. by destruct (own (triggers st) trigger).
  - destruct (run_pipe_frame p now alias st) as [Hcfg _].
    by apply (same_config_archived name l st).
Qed.

Lemma run_calls_archived (name : option hname) (l : nat) (calls : list call) (st : State) :
  Forall keeps_history calls -> archived name l st -> archived name l (run_calls calls st).
Proof.
  revert st. induction calls as [|c calls IH]; intros st Hquiet Harch; simpl; [done|].
  apply Forall_cons in Hquiet as [Hc Hquiet]. apply IH; [done|].
  by apply perform_archived.
Qed.

(** [C9], amended.  saveHistory stores the reference of the active history:
    after [saveHistory(name)], then any calls that are neither reset nor
    restartHistory, and then a recorded dispatch to a handler, the archive
    still holds that reference (at a position, and under [name] if one was
    given), it is still the active history, and the object it points to has
    the new entry.  The names given to saveHistory are neither [length] nor
    another member arrays inherit. *)
Theorem saved_history_sees_later_entries (name : option hname) (between : list call)
    (p : pipe) (now : Q) (alias code : value) (st : State) (f l : nat) :
  history st = Some l ->
  from_option ordinary_name True name ->
  Forall keeps_history between ->
  truthy (recording (run_calls between (saveHistory name st))) = true ->
  reaches p alias (run_calls between (saveHistory name st)) code ->
  (groups (run_calls between (saveHistory name st)) !!! pipe_functions p) !! key_of code
    = Some (VFun f) ->
  let st2 := state_of (run_pipe p now alias (run_calls between (saveHistory name st))) in
  Some l ∈ getHistories st2 /\
  match name with Some n => getHistory (Some n) st2 = Some l | None => True end /\
  getHistory None st2 = Some l /\
  deref st2 l !! js_round now = Some (pipe_trigger p, code).
Proof.
  intros Hhist Hname Hquiet Hrec Hreach Hown. cbv zeta.
  pose proof (run_calls_archived name l between (saveHistory name st) Hquiet
                (saveHistory_archived name l st Hhist Hname)) as Harch.
  set (st1 := run_calls between (saveHistory name st)) in *.
  destruct (run_pipe_frame p now alias st1) as [Hcfg _].
  destruct (same_config_archived name l st1 _ Hcfg Harch) as (Hh2 & Hpos2 & Hname2).
  repeat split; try done.
  destruct Harch as (Hh & _).
  rewrite (run_pipe_recorded p now alias code st1 f l) by done.
  destruct (pipe_prevent_state p alias st1) as (_ & HH & _).
  unfold deref. simpl. rewrite HH, lookup_total_insert_eq. apply lookup_insert_eq.
Qed.

End Archive.

(** ** The further theorems at the sample configurations *)

Section MoreScenarios.
#[local] Existing Instance demo_host.

Lemma reset_keeps_own_properties_demo :
  is_Some ((groups (reset demo_settings (blank demo_heap)) !!! 0%nat) !! "move-left").
Proof.
  apply (reset_keeps_own_properties demo_settings (blank demo_heap) 0%nat "move-left").
  apply (bool_decide_unpack _). vm_compute. exact I.
Defined.


Lemma reset_touches_only_codes_demo :
  (groups (reset demo_settings (blank demo_heap)) !!! 0%nat) !! "move-left"
  = (groups (blank demo_heap) !!! 0%nat) !! "move-left".
Proof.
  apply (reset_touches_only_codes demo_settings (blank demo_heap) 0%nat "move-left").
  right. apply (bool_decide_unpack _). vm_compute. exact I.
Defined.


Lemma reset_idempotent_demo :
  reset demo_settings (reset demo_settings demo_recorded) = reset demo_settings demo_recorded.
Proof.
  apply (reset_idempotent demo_settings demo_recorded).
  apply (bool_decide_unpack _). vm_compute. exact I.
Defined.

(** Without the condition a second reset can change a group: "b" is a label
    and the code of "a", and the key "c" holds the handler of "b" after one
    reset and that of "a" after two. *)
Lemma reset_twice_differs_when_label_is_code :
  let st1 := reset chain_settings (blank chain_heap) in
  let st2 := reset chain_settings st1 in
  (groups st1 !!! 0%nat) !! "c" = Some (VFun 2) /\
  (groups st2 !!! 0%nat) !! "c" = Some (VFun 1).
Proof. vm_compute. by split. Qed.

Lemma history_entries_persist_demo :
  is_Some (deref
    (run_calls [CallRestartHistory (Some (VBool true)) 200; CallReset second_settings;
                CallPipe demo_pipe 300 (VObj 1)]
       (run_calls [CallRestartHistory None (401 # 4); CallPipe demo_pipe 107 (VObj 1)]
          (InputWritr (Some demo_settings) demo_heap))) 0 !! 107).
Proof.
  apply (history_entries_persist (Some demo_settings) demo_heap
           [CallRestartHistory None (401 # 4); CallPipe demo_pipe 107 (VObj 1)]
           [CallRestartHistory (Some (VBool true)) 200; CallReset second_settings;
            CallPipe demo_pipe 300 (VObj 1)] 0%nat 107).
  apply (bool_decide_unpack _). vm_compute. exact I.
Defined.

Lemma history_keys_after_start_demo :
  keys_after_start
    (run_calls [CallRestartHistory None (401 # 4); CallPipe demo_pipe 107 (VObj 1)]
       (InputWritr (Some demo_settings) demo_heap)).
Proof.
  apply (history_keys_after_start (Some demo_settings) demo_heap
           [CallRestartHistory None (401 # 4); CallPipe demo_pipe 107 (VObj 1)]).
  simpl. repeat split. vm_compute. discriminate.
Defined.

Lemma restartHistory_snapshot_stable_demo :
  let st := run_calls [CallRestartHistory None (401 # 4); CallPipe demo_pipe 107 (VObj 1)]
              (InputWritr (Some demo_settings) demo_heap) in
  let st1 := restartHistory (Some (VBool true)) 200 st in
  getHistories st1 = getHistories st ++ [Some 0%nat] /\
  getHistory None st1 <> Some 0%nat /\
  deref st1 0 = deref st 0 /\
  deref (state_of (run_pipe demo_pipe 300 (VObj 1) st1)) 0 = deref st 0.
Proof.
  apply (restartHistory_snapshot_stable (Some demo_settings) demo_heap
           [CallRestartHistory None (401 # 4); CallPipe demo_pipe 107 (VObj 1)]
           (VBool true) 200 0%nat demo_pipe 300 (VObj 1)).
  - repeat constructor.
  - reflexivity.
  - reflexivity.
Defined.


Lemma pipe_nullish_occurrence_raises_demo :
  run_pipe demo_pipe 1 VUndef demo_started = Threw demo_started.
Proof.
  apply (pipe_nullish_occurrence_raises demo_pipe 1 VUndef demo_started).
  - reflexivity.
  - left. reflexivity.
Defined.

Lemma pipe_writes_only_active_history_demo :
  let st := restartHistory (Some (VBool true)) 200 demo_recorded in
  same_config st (state_of (run_pipe demo_pipe 300 (VObj 1) st)) /\
  deref (state_of (run_pipe demo_pipe 300 (VObj 1) st)) 0 = deref st 0.
Proof.
  apply (pipe_writes_only_active_history demo_pipe 300 (VObj 1)
           (restartHistory (Some (VBool true)) 200 demo_recorded) 0%nat).
  vm_compute. discriminate.
Defined.

Lemma saveHistory_getHistory_round_trip_demo :
  let st := saveHistory (Some (HName "run0")) demo_recorded in
  getHistory (Some (HName "run1")) (saveHistory (Some (HName "run1")) st)
    = getHistory None st /\
  getHistory (Some (HName "0")) (saveHistory (Some (HName "run1")) st)
    = getHistory (Some (HName "0")) st /\
  getHistory None (saveHistory (Some (HName "run1")) st) = getHistory None st.
Proof.
  apply (saveHistory_getHistory_round_trip (Some (HName "run1")) (HName "0")
           (saveHistory (Some (HName "run0")) demo_recorded)).
  - vm_compute. by split.
  - vm_compute. exact I.
  - vm_compute. discriminate.
  - vm_compute. lia.
Defined.

(** The call [makePipe("key-down", null, true)]. *)
Lemma makePipe_label_by_argument_count_demo :
  pipe_code {| pipe_trigger := "key-down"; pipe_functions := 0%nat; pipe_use_label := true;
               pipe_code_label := VNull; pipe_prevent_defaults := VBool true |} (VObj 1)
  = Some (host_prop (VObj 1) "null").
Proof.
  apply (makePipe_label_by_argument_count "key-down" [VNull; VBool true] demo_state
           {| pipe_trigger := "key-down"; pipe_functions := 0%nat; pipe_use_label := true;
              pipe_code_label := VNull; pipe_prevent_defaults := VBool true |} (VObj 1)).
  vm_compute. reflexivity.
Defined.




(** [saved_history_sees_later_entries] at [saveHistory("run1")],
    then a setter, an unnamed saveHistory and a dispatch, then the key event
    at 107. *)
Lemma saved_history_sees_later_entries_demo :
  let st2 :=
    state_of (run_pipe demo_pipe 107 (VObj 1)
      (run_calls [CallSetEventInformation (VObj 3); CallSaveHistory None;
                  CallPipe plain_pipe 106 (VNum 65)]
         (saveHistory (Some (HName "run1")) demo_started))) in
  Some 0%nat ∈ getHistories st2 /\
  getHistory (Some (HName "run1")) st2 = Some 0%nat /\
  getHistory None st2 = Some 0%nat /\
  deref st2 0 !! js_round 107 = Some ("key-down", VNum 37).
Proof.
  apply (saved_history_sees_later_entries (Some (HName "run1"))
           [CallSetEventInformation (VObj 3); CallSaveHistory None;
            CallPipe plain_pipe 106 (VNum 65)]
           demo_pipe 107 (VObj 1) (VNum 37) demo_started 7 0%nat).
  - reflexivity.
  - vm_compute. by split.
  - repeat constructor.
  - reflexivity.
  - split; reflexivity.
  - vm_compute. reflexivity.
Defined.

(** [C9] as stated fails when a reset comes between: after
    [saveHistory("run1")], [reset] and a recorded dispatch, with no
    restartHistory, the archive is empty and [getHistory("run1")] is
    undefined, although the entry is in the active history. *)
Lemma saved_history_reset_counterexample :
  let st1 := reset demo_settings (saveHistory (Some (HName "run1")) demo_started) in
  let o := run_pipe demo_pipe 107 (VObj 1) st1 in
  getHistory (Some (HName "run1")) (saveHistory (Some (HName "run1")) demo_started)
    = Some 0%nat /\
  returned o = true /\
  deref (state_of o) 0 !! 107 = Some ("key-down", VNum 37) /\
  getHistory (Some (HName "run1")) (state_of o) = None /\
  getHistories (state_of o) = [].
Proof. vm_compute. repeat split. Qed.

(** [C6] through a pipe: the group entry at 37 is the label "jump", the
    dispatch hands it to callEvent, [triggers] has nothing under "jump", and
    the call raises without a warning. *)
Lemma pipe_label_without_group_raises :
  let st := InputWritr (Some label_settings) label_heap in
  let o := run_pipe plain_pipe 5 (VNum 37) st in
  (groups st !!! 0%nat) !! key_of (VNum 37) = Some (VStr "jump") /\
  own (triggers st) "jump" = None /\
  returned o = false /\
  effects (state_of o) = [].
Proof. vm_compute. repeat split. Qed.

End MoreScenarios.
